(** * BattleshipGame: the match engine (GameManager) and the round results

    A shallow embedding of [GameManager.cpp], [GameManager.h] and of the value
    types of [Scoreboard.h].

    - C++ [int] values are integers of [Z] in the range of a 32-bit signed
      integer; the one arithmetic operation of the engine, the decrement of a
      coordinate, is written with its wrap-around.
    - [IBattleshipGameAlgo&] and [IBattleshipGameAlgo*] are addresses into a
      store of player objects, so that [currPlayer == &playerA] is a
      comparison of addresses, as in the source.
    - The collaborators whose code is not part of the engine ([BattleBoard],
      [IBattleshipGameAlgo], [IGameVisual]) are interfaces: type classes whose
      methods take and return the object's state.
    - Every call that [startGame] makes on a collaborator is recorded, in
      order, in a trace.
    - The strategies and the visualizer act on their own state only: the
      board changes through [executeAttack] alone.
    - The [while] loop of [startGame] need not terminate (two strategies may
      miss for ever): it is run with fuel, and the result says whether the
      loop was left. *)

From Stdlib Require Import ZArith List Bool Arith Lia String Sorted.
From Stdlib Require Import SpecFloat.
Import ListNotations.

Local Open Scope Z_scope.

(** ** Machine integers *)

Module Int.

Definition min_int : Z := - 2 ^ 31.
Definition max_int : Z := 2 ^ 31 - 1.

Definition in_range (x : Z) : Prop := min_int <= x <= max_int.

(** Reduction to the range of [int] (two's complement). *)
Definition wrap (x : Z) : Z := (x - min_int) mod 2 ^ 32 + min_int.

(** [x--] on an [int]. *)
Definition dec (x : Z) : Z := wrap (x - 1).

End Int.

(** ** Types shared by the engine and its collaborators *)

(** [PlayerEnum], declared with the board. *)
Inductive PlayerEnum : Type := A | B.

(** [AttackResult], declared with the player interface. *)
Inductive AttackResult : Type := Miss | Hit | Sink.

(** The one field of [GamePiece] the engine reads. *)
Record GamePiece : Type := { _lifeLeft : Z }.

(** An address of a player object. *)
Definition addr : Type := nat.

(** [BattleBoard]: what the engine calls on the board.  [executeAttack]
    changes the board and returns a pointer to the piece that was hit, or
    [NULL]. *)
Class BattleBoard (Board Matrix : Type) : Type := {
  getPlayerAShipCount : Board -> Z;
  getPlayerBShipCount : Board -> Z;
  getBoardMatrix : Board -> Matrix;
  executeAttack : Board -> Z * Z -> Board * option GamePiece
}.

(** [IBattleshipGameAlgo]: a player strategy. *)
Class IBattleshipGameAlgo (Algo Matrix : Type) : Type := {
  setBoard : Matrix -> Z -> Z -> Algo -> Algo;
  attack : Algo -> (Z * Z) * Algo;
  notifyOnAttackResult : Z -> Z -> Z -> AttackResult -> Algo -> Algo
}.

(** [IGameVisual]: the visualizer. *)
Class IGameVisual (Visual Board : Type) : Type := {
  visualizeAttackResults : Z -> Z -> AttackResult -> Visual -> Visual;
  visualizeEndGame : Board -> bool -> bool -> Visual -> Visual
}.

(** The [GameManager] object: the score for past games. *)
Record GameManager : Type := {
  _playerAWins : Z;
  _playerBWins : Z
}.

(** [GameManager()]: both counters start at [0]. *)
Definition newGameManager : GameManager :=
  {| _playerAWins := 0; _playerBWins := 0 |}.

(** [FOREFEIT_COORDINATES] of [GameManager.h]. *)
Definition FOREFEIT_COORDINATES : Z := -1.

(** The calls, in the order in which they are made. *)
Inductive Event (Board : Type) : Type :=
| CallSetBoard (p : addr) (rows cols : Z)
| CallAttack (p : addr) (target : Z * Z)
| CallExecuteAttack (target : Z * Z)
| CallNotifyOnAttackResult (p : addr) (player : Z) (row col : Z)
                           (result : AttackResult)
| CallVisualizeAttackResults (row col : Z) (result : AttackResult)
| CallVisualizeEndGame (b : Board) (isPlayerAForfeit isPlayerBForfeit : bool)
| CallUpdateCurrentGamePoints
| CallUpdateScoreboard.

Arguments CallSetBoard {Board} p rows cols.
Arguments CallAttack {Board} p target.
Arguments CallExecuteAttack {Board} target.
Arguments CallNotifyOnAttackResult {Board} p player row col result.
Arguments CallVisualizeAttackResults {Board} row col result.
Arguments CallVisualizeEndGame {Board} b isPlayerAForfeit isPlayerBForfeit.
Arguments CallUpdateCurrentGamePoints {Board}.
Arguments CallUpdateScoreboard {Board}.

(** Equality of two [pair<int,int>]. *)
Definition target_eqb (s t : Z * Z) : bool :=
  (fst s =? fst t) && (snd s =? snd t).

(** ** GameManager *)

Section GameManager.

Context {Board Matrix Algo Visual : Type}.
Context `{BB : BattleBoard Board Matrix}.
Context `{PL : IBattleshipGameAlgo Algo Matrix}.
Context `{GV : IGameVisual Visual Board}.

(** Constants of the headers that are not part of the engine's files: the
    side of the board and the pair a strategy returns to forfeit. *)
Variable BOARD_SIZE : Z.
Variable FORFEIT : Z * Z.

(** [GameManager::isPlayerShipsLeft].  The source writes the second getter
    without its parentheses, [board->getPlayerBShipCount]; it is read as the
    call. *)
Definition isPlayerShipsLeft (board : Board) (player : PlayerEnum) : bool :=
  let shipsCount :=
    match player with
    | A => getPlayerAShipCount board
    | B => getPlayerBShipCount board
    end in
  shipsCount >? 0.

(** [GameManager::isGameOver] *)
Definition isGameOver (board : Board)
           (isPlayerAForfeit isPlayerBForfeit : bool) : bool :=
  if (isPlayerAForfeit && isPlayerBForfeit)
     || negb (isPlayerShipsLeft board A)
     || negb (isPlayerShipsLeft board B)
  then true
  else false.

(** [GameManager::switchPlayerTurns]; [playerA] and [playerB] are the
    addresses [&playerA] and [&playerB]. *)
Definition switchPlayerTurns (playerA playerB : addr) (currPlayer : addr)
           (isPlayerAForfeit isPlayerBForfeit : bool) : addr :=
  if (currPlayer =? playerA)%nat && negb isPlayerBForfeit then playerB
  else if negb isPlayerAForfeit then playerA
  else playerB.

(** The store of player objects and the calls through a reference. *)
Definition Store : Type := addr -> Algo.

Definition store_set (h : Store) (p : addr) (o : Algo) : Store :=
  fun q => if (q =? p)%nat then o else h q.

Definition call_setBoard (h : Store) (p : addr) (m : Matrix)
           (rows cols : Z) : Store :=
  store_set h p (setBoard m rows cols (h p)).

Definition call_attack (h : Store) (p : addr) : (Z * Z) * Store :=
  (fst (attack (h p)), store_set h p (snd (attack (h p)))).

Definition call_notifyOnAttackResult (h : Store) (p : addr) (player : Z)
           (row col : Z) (result : AttackResult) : Store :=
  store_set h p (notifyOnAttackResult player row col result (h p)).

(** The objects and the local variables of [startGame], and the trace of
    the calls made so far. *)
Record GameState : Type := mkGameState {
  this : GameManager;
  board : Board;
  players : Store;
  visualizer : Visual;
  currentPlayer : addr;
  isPlayerAForfeit : bool;
  isPlayerBForfeit : bool;
  trace : list (Event Board)
}.

Variables playerA playerB : addr.

(** [target.first--; target.second--;] *)
Definition normalize (target : Z * Z) : Z * Z :=
  (Int.dec (fst target), Int.dec (snd target)).

(** The [if / else if / else] on [attackedGamePiece]. *)
Definition attackResultOf (attackedGamePiece : option GamePiece)
  : AttackResult :=
  match attackedGamePiece with
  | None => Miss
  | Some piece => if _lifeLeft piece =? 0 then Sink else Hit
  end.

(** [int attackingPlayerNumber = (currentPlayer == &playerB);] *)
Definition attackingPlayerNumberOf (currPlayer : addr) : Z :=
  if (currPlayer =? playerB)%nat then 1 else 0.

(** One run of the body of the [while] loop of [startGame]. *)
Definition loop_body (st : GameState) : GameState :=
  let cur := currentPlayer st in
  let target := fst (call_attack (players st) cur) in
  let h1 := snd (call_attack (players st) cur) in
  let tr1 := trace st ++ [CallAttack cur target] in
  if target_eqb target FORFEIT then
    let fA := if (cur =? playerA)%nat then true else isPlayerAForfeit st in
    let fB := if (cur =? playerA)%nat then isPlayerBForfeit st else true in
    mkGameState (this st) (board st) h1 (visualizer st)
                (switchPlayerTurns playerA playerB cur fA fB) fA fB tr1
  else
    let target' := normalize target in
    let b1 := fst (executeAttack (board st) target') in
    let attackedGamePiece := snd (executeAttack (board st) target') in
    let attackingPlayerNumber := attackingPlayerNumberOf cur in
    let attackResult := attackResultOf attackedGamePiece in
    let cur1 :=
      match attackedGamePiece with
      | None => switchPlayerTurns playerA playerB cur
                                  (isPlayerAForfeit st) (isPlayerBForfeit st)
      | Some _ => cur
      end in
    let h2 := call_notifyOnAttackResult h1 playerA attackingPlayerNumber
                (fst target') (snd target') attackResult in
    let h3 := call_notifyOnAttackResult h2 playerB attackingPlayerNumber
                (fst target') (snd target') attackResult in
    let v1 := visualizeAttackResults (fst target') (snd target') attackResult
                (visualizer st) in
    mkGameState (this st) b1 h3 v1 cur1
                (isPlayerAForfeit st) (isPlayerBForfeit st)
                (tr1 ++ [CallExecuteAttack target';
                         CallNotifyOnAttackResult playerA attackingPlayerNumber
                           (fst target') (snd target') attackResult;
                         CallNotifyOnAttackResult playerB attackingPlayerNumber
                           (fst target') (snd target') attackResult;
                         CallVisualizeAttackResults
                           (fst target') (snd target') attackResult]).

(** The condition of the [while] loop. *)
Definition loop_cond (st : GameState) : bool :=
  negb (isGameOver (board st) (isPlayerAForfeit st) (isPlayerBForfeit st)).

(** The state on entry to the loop: both strategies were given the board,
    player A is to play and nobody has forfeited. *)
Definition initial_state (mgr : GameManager) (b : Board) (h : Store)
           (v : Visual) : GameState :=
  let h1 := call_setBoard h playerA (getBoardMatrix b) BOARD_SIZE BOARD_SIZE in
  let h2 := call_setBoard h1 playerB (getBoardMatrix b) BOARD_SIZE BOARD_SIZE in
  mkGameState mgr b h2 v playerA false false
              [CallSetBoard playerA BOARD_SIZE BOARD_SIZE;
               CallSetBoard playerB BOARD_SIZE BOARD_SIZE].

(** The [while] loop, for at most [fuel] runs of its body.  The flag of the
    result tells whether the loop was left. *)
Fixpoint game_loop (fuel : nat) (st : GameState) : bool * GameState :=
  if loop_cond st then
    match fuel with
    | O => (false, st)
    | S fuel' => game_loop fuel' (loop_body st)
    end
  else (true, st).

(** The statement after the loop. *)
Definition end_game (st : GameState) : GameState :=
  mkGameState (this st) (board st) (players st)
              (visualizeEndGame (board st) (isPlayerAForfeit st)
                                (isPlayerBForfeit st) (visualizer st))
              (currentPlayer st) (isPlayerAForfeit st) (isPlayerBForfeit st)
              (trace st ++ [CallVisualizeEndGame (board st)
                              (isPlayerAForfeit st) (isPlayerBForfeit st)]).

(** [GameManager::startGame].  The flag is [true] when the call returned,
    and [false] when the fuel ran out inside the loop (the state is then the
    one the loop had reached). *)
Definition startGame (fuel : nat) (mgr : GameManager) (b : Board)
           (h : Store) (v : Visual) : bool * GameState :=
  let r := game_loop fuel (initial_state mgr b h v) in
  if fst r then (true, end_game (snd r)) else (false, snd r).

(** The states in which the loop condition is evaluated during a match. *)
Inductive reachable (mgr : GameManager) (b : Board) (h : Store) (v : Visual)
  : GameState -> Prop :=
| reachable_init : reachable mgr b h v (initial_state mgr b h v)
| reachable_step (st : GameState) :
    reachable mgr b h v st ->
    loop_cond st = true ->
    reachable mgr b h v (loop_body st).

(** The forfeit flag that belongs to the player at an address. *)
Definition forfeited (st : GameState) (p : addr) : bool :=
  ((p =? playerA)%nat && isPlayerAForfeit st)
  || ((p =? playerB)%nat && isPlayerBForfeit st).

(** What one run of the body does, as the loop sees it. *)
Inductive Outcome : Type :=
| Forfeited
| Resolved (result : AttackResult).

Definition outcome (st : GameState) : Outcome :=
  let target := fst (call_attack (players st) (currentPlayer st)) in
  if target_eqb target FORFEIT then Forfeited
  else Resolved (attackResultOf
                   (snd (executeAttack (board st) (normalize target)))).

(** The other of the two players. *)
Definition opponent (p : addr) : addr :=
  if (p =? playerA)%nat then playerB else playerA.

(** Selectors on the trace. *)
Definition is_end_game_call (e : Event Board) : bool :=
  match e with
  | CallVisualizeEndGame _ _ _ => true
  | _ => false
  end.

Definition is_score_call (e : Event Board) : bool :=
  match e with
  | CallUpdateCurrentGamePoints | CallUpdateScoreboard => true
  | _ => false
  end.

Definition is_attack_call_on (p : addr) (e : Event Board) : bool :=
  match e with
  | CallAttack q _ => (q =? p)%nat
  | _ => false
  end.

End GameManager.


(** ** The value types of the scoreboard *)

Module Scoreboard.

(** [struct PlayerStatistics]; [rating] is a [float]. *)
Record PlayerStatistics : Type := {
  playerName : string;
  pointsFor : Z;
  pointsAgainst : Z;
  wins : Z;
  loses : Z;
  rating : spec_float
}.

(** [PlayerStatisticsRatingSort::operator()]: [a.rating < b.rating]. *)
Definition PlayerStatisticsRatingSort (a b : PlayerStatistics) : bool :=
  SFltb (rating a) (rating b).

(** The order of the set of a round, as a relation. *)
Definition rating_before (a b : PlayerStatistics) : Prop :=
  PlayerStatisticsRatingSort a b = true.

(** [std::set<Key, Compare>], as the sequence of its elements in iteration
    order.  An element is inserted before the first element it precedes, and
    is not inserted when it is equivalent to an element of the set, that is
    when [Compare] orders the two neither way. *)
Section StdSet.

Variable Key : Type.
Variable Compare : Key -> Key -> bool.

Fixpoint set_insert (x : Key) (s : list Key) : list Key :=
  match s with
  | [] => [x]
  | y :: s' =>
      if Compare x y then x :: y :: s'
      else if Compare y x then y :: set_insert x s'
      else y :: s'
  end.

Definition set_of (xs : list Key) : list Key :=
  fold_left (fun s x => set_insert x s) xs [].

End StdSet.

Arguments set_insert {Key} Compare x s.
Arguments set_of {Key} Compare xs.

(** [struct RoundResults] *)
Record RoundResults : Type := {
  roundNum : Z;
  playerStatistics : list PlayerStatistics
}.

(** A round in which the statistics [xs] were inserted, in this order, into
    the [playerStatistics] of a new [RoundResults]. *)
Definition roundResultsOf (aRoundNum : Z) (xs : list PlayerStatistics)
  : RoundResults :=
  {| roundNum := aRoundNum;
     playerStatistics := set_of PlayerStatisticsRatingSort xs |}.

(** The float [1.0] (mantissa [2^23], exponent [-23]). *)
Definition one : spec_float := S754_finite false 8388608 (-23).

Definition alice : PlayerStatistics :=
  {| playerName := "alice"; pointsFor := 10; pointsAgainst := 0;
     wins := 1; loses := 0; rating := one |}.

Definition bob : PlayerStatistics :=
  {| playerName := "bob"; pointsFor := 12; pointsAgainst := 0;
     wins := 1; loses := 0; rating := one |}.

End Scoreboard.

(** ** A small board, scripted strategies and a recording visualizer *)

Module Demo.

(** A board that holds, for each cell of a ship that was not hit yet, the
    owner of the ship and the life left to the ship once that cell is hit. *)
Record DemoBoard : Type := {
  shipsA : Z;
  shipsB : Z;
  cells : list ((Z * Z) * (PlayerEnum * Z))
}.

Fixpoint find_cell (t : Z * Z) (l : list ((Z * Z) * (PlayerEnum * Z)))
  : option (PlayerEnum * Z) :=
  match l with
  | [] => None
  | (t', x) :: l' => if target_eqb t t' then Some x else find_cell t l'
  end.

Fixpoint remove_cell (t : Z * Z) (l : list ((Z * Z) * (PlayerEnum * Z)))
  : list ((Z * Z) * (PlayerEnum * Z)) :=
  match l with
  | [] => []
  | (t', x) :: l' =>
      if target_eqb t t' then l' else (t', x) :: remove_cell t l'
  end.

Definition demo_executeAttack (b : DemoBoard) (t : Z * Z)
  : DemoBoard * option GamePiece :=
  match find_cell t (cells b) with
  | None => (b, None)
  | Some (owner, life) =>
      let sunk := if life =? 0 then 1 else 0 in
      ({| shipsA := match owner with A => shipsA b - sunk | B => shipsA b end;
          shipsB := match owner with A => shipsB b | B => shipsB b - sunk end;
          cells := remove_cell t (cells b) |},
       Some {| _lifeLeft := life |})
  end.

#[export] Instance demoBoard : BattleBoard DemoBoard unit := {
  getPlayerAShipCount := shipsA;
  getPlayerBShipCount := shipsB;
  getBoardMatrix := fun _ => tt;
  executeAttack := demo_executeAttack
}.

Definition FORFEIT : Z * Z := (FOREFEIT_COORDINATES, FOREFEIT_COORDINATES).

(** A strategy that plays the targets of a list and then forfeits. *)
Definition Script : Type := list (Z * Z).

#[export] Instance scripted : IBattleshipGameAlgo Script unit := {
  setBoard := fun _ _ _ s => s;
  attack := fun s => match s with
                     | [] => (FORFEIT, [])
                     | t :: s' => (t, s')
                     end;
  notifyOnAttackResult := fun _ _ _ _ s => s
}.

(** A visualizer that counts the calls of each of its two methods. *)
Record Counter : Type := { shown : nat; ended : nat }.

#[export] Instance counting : IGameVisual Counter DemoBoard := {
  visualizeAttackResults := fun _ _ _ v =>
    {| shown := S (shown v); ended := ended v |};
  visualizeEndGame := fun _ _ _ v =>
    {| shown := shown v; ended := S (ended v) |}
}.

Definition pA : addr := 1%nat.
Definition pB : addr := 2%nat.

Definition store (sa sb : Script) : addr -> Script :=
  fun p => if (p =? pA)%nat then sa else sb.

Definition v0 : Counter := {| shown := 0; ended := 0 |}.

(** One ship of one cell for each player: A's at [(0,0)], B's at [(1,1)]. *)
Definition duel : DemoBoard :=
  {| shipsA := 1; shipsB := 1;
     cells := [((0, 0), (A, 0)); ((1, 1), (B, 0))] |}.

(** The state on entry to the loop of a match on [duel]. *)
Definition start (sa sb : Script) : GameState :=
  initial_state 10 pA pB newGameManager duel (store sa sb) v0.

Definition body : GameState -> GameState := loop_body FORFEIT pA pB.

(** A match in which A forfeits at once and B attacks the empty cell
    [(2,2)] before it forfeits too: the state after A's forfeit and the state
    after B's miss. *)
Definition after_forfeit_of_A : GameState := body (start [] [(3, 3)]).
Definition after_miss_of_B : GameState := body after_forfeit_of_A.

(** A match in which A attacks the cell of B's ship with its first move. *)
Definition first_shot : GameState := start [(2, 2)] [].

(** B's ship has two cells, [(1,1)] and [(1,2)].  A hits the first one and
    then attacks the same cell again: the state after the hit. *)
Definition frigate : DemoBoard :=
  {| shipsA := 1; shipsB := 1;
     cells := [((0, 0), (A, 0)); ((1, 1), (B, 1)); ((1, 2), (B, 0))] |}.

Definition after_hit_of_A : GameState :=
  body (initial_state 10 pA pB newGameManager frigate
                      (store [(2, 2); (2, 2)] []) v0).

End Demo.

(** ** Reading a trace *)

Section Trace.

Context {Board Matrix : Type} `{BB : BattleBoard Board Matrix}.

Variable FORFEIT : Z * Z.

(** A call of [attack] on [p] that returned the forfeit pair. *)
Definition is_forfeit_of (p : addr) (e : Event Board) : bool :=
  match e with
  | CallAttack q t => (q =? p)%nat && target_eqb t FORFEIT
  | _ => false
  end.

(** A call of [attack] that returned a target to attack. *)
Definition is_target_call (e : Event Board) : bool :=
  match e with
  | CallAttack _ t => negb (target_eqb t FORFEIT)
  | _ => false
  end.

Definition is_execute_call (e : Event Board) : bool :=
  match e with
  | CallExecuteAttack _ => true
  | _ => false
  end.

Definition is_notify_call_on (p : addr) (e : Event Board) : bool :=
  match e with
  | CallNotifyOnAttackResult q _ _ _ _ => (q =? p)%nat
  | _ => false
  end.

Definition is_visualize_attack_call (e : Event Board) : bool :=
  match e with
  | CallVisualizeAttackResults _ _ _ => true
  | _ => false
  end.

(** How many events of a trace a selector picks. *)
Definition count (f : Event Board -> bool) (tr : list (Event Board)) : nat :=
  List.length (filter f tr).

(** The targets that were passed to [executeAttack], in order. *)
Definition executed_targets (tr : list (Event Board)) : list (Z * Z) :=
  flat_map (fun e => match e with
                     | CallExecuteAttack t => [t]
                     | _ => []
                     end) tr.

(** The board after the attacks on the targets of a list. *)
Definition replay (b : Board) (ts : list (Z * Z)) : Board :=
  fold_left (fun b' t => fst (executeAttack b' t)) ts b.

End Trace.

(** ** Replaying a trace on the objects *)

Section Replay.

Context {Board Matrix Algo Visual : Type}.
Context `{BB : BattleBoard Board Matrix}.
Context `{PL : IBattleshipGameAlgo Algo Matrix}.
Context `{GV : IGameVisual Visual Board}.

(** The state with another [GameManager] object in the place of [this]. *)
Definition with_manager (mgr : GameManager)
           (st : @GameState Board Algo Visual) : @GameState Board Algo Visual :=
  mkGameState mgr (board st) (players st) (visualizer st) (currentPlayer st)
              (isPlayerAForfeit st) (isPlayerBForfeit st) (trace st).

(** What a recorded call does to the strategy object at address [p]; [m] is
    the matrix that [setBoard] is given. *)
Definition player_step (m : Matrix) (p : addr) (s : Algo) (e : Event Board)
  : Algo :=
  match e with
  | CallSetBoard q rows cols =>
      if (p =? q)%nat then setBoard m rows cols s else s
  | CallAttack q _ =>
      if (p =? q)%nat then snd (attack s) else s
  | CallNotifyOnAttackResult q player row col result =>
      if (p =? q)%nat then notifyOnAttackResult player row col result s
      else s
  | _ => s
  end.

Definition replay_player (m : Matrix) (p : addr) (tr : list (Event Board))
           (s : Algo) : Algo :=
  fold_left (player_step m p) tr s.

(** What a recorded call does to the visualizer. *)
Definition visual_step (v : Visual) (e : Event Board) : Visual :=
  match e with
  | CallVisualizeAttackResults row col result =>
      visualizeAttackResults row col result v
  | CallVisualizeEndGame b fA fB => visualizeEndGame b fA fB v
  | _ => v
  end.

Definition replay_visualizer (tr : list (Event Board)) (v : Visual)
  : Visual :=
  fold_left visual_step tr v.

End Replay.

(** Two entries that the order of a round's set does not tell apart. *)
Definition rating_equivalent (a b : Scoreboard.PlayerStatistics) : bool :=
  negb (Scoreboard.PlayerStatisticsRatingSort a b)
  && negb (Scoreboard.PlayerStatisticsRatingSort b a).

(** More boards and entries for the examples. *)
Module Demo2.

Import Demo.

(** A board on which player A has no ship. *)
Definition no_fleet : DemoBoard :=
  {| shipsA := 0; shipsB := 1; cells := [((1, 1), (B, 0))] |}.

(** The float [0.5] (mantissa [2^23], exponent [-24]). *)
Definition half : spec_float := S754_finite false 8388608 (-24).

Definition carol : Scoreboard.PlayerStatistics :=
  {| Scoreboard.playerName := "carol"; Scoreboard.pointsFor := 3;
     Scoreboard.pointsAgainst := 9; Scoreboard.wins := 1;
     Scoreboard.loses := 1; Scoreboard.rating := half |}.

(** A strategy that attacks the cell [(3,3)] at every call. *)
#[export] Instance stubborn : IBattleshipGameAlgo unit unit := {
  setBoard := fun _ _ _ s => s;
  attack := fun s => ((3, 3), s);
  notifyOnAttackResult := fun _ _ _ _ s => s
}.

Definition idle : addr -> unit := fun _ => tt.

(** The run, with [fuel], of a match on [duel] between two such
    strategies. *)
Definition endless (fuel : nat) : bool * @GameState DemoBoard unit Counter :=
  startGame 10 FORFEIT pA pB fuel newGameManager duel idle v0.

End Demo2.

(** * Properties *)

(** ** Machine integers and targets *)

Lemma wrap_in_range (x : Z) : Int.in_range (Int.wrap x).
Proof.
  unfold Int.in_range, Int.wrap, Int.min_int, Int.max_int.
  pose proof (Z.mod_pos_bound (x - - 2 ^ 31) (2 ^ 32) ltac:(lia)). lia.
Qed.

Lemma wrap_small (x : Z) : Int.in_range x -> Int.wrap x = x.
Proof.
  unfold Int.in_range, Int.wrap, Int.min_int, Int.max_int. intros Hx.
  rewrite Z.mod_small; lia.
Qed.

Lemma dec_pred (x : Z) :
  Int.min_int < x <= Int.max_int -> Int.dec x = x - 1.
Proof.
  intros Hx. unfold Int.dec. apply wrap_small.
  unfold Int.in_range, Int.min_int, Int.max_int in *. lia.
Qed.

Lemma target_eqb_eq (s t : Z * Z) : target_eqb s t = true <-> s = t.
Proof.
  destruct s as [a b], t as [c d]; unfold target_eqb; cbn.
  rewrite andb_true_iff, !Z.eqb_eq. split.
  - intros [-> ->]; reflexivity.
  - intros E; inversion E; auto.
Qed.

Lemma target_eqb_neq (s t : Z * Z) : target_eqb s t = false <-> s <> t.
Proof.
  rewrite <- target_eqb_eq. destruct (target_eqb s t); split; congruence.
Qed.

(** ** The end of a match and the choice of the next player *)

Section GameOver.

Context {Board Matrix : Type} `{BB : BattleBoard Board Matrix}.

Lemma isPlayerShipsLeft_A (b : Board) :
  isPlayerShipsLeft b A = true <-> 0 < getPlayerAShipCount b.
Proof. unfold isPlayerShipsLeft. rewrite Z.gtb_lt. reflexivity. Qed.

Lemma isPlayerShipsLeft_B (b : Board) :
  isPlayerShipsLeft b B = true <-> 0 < getPlayerBShipCount b.
Proof. unfold isPlayerShipsLeft. rewrite Z.gtb_lt. reflexivity. Qed.

(** For ship counts of any sign: the game is over when both players have
    forfeited or a player has no ship left. *)
Lemma isGameOver_spec (b : Board) (fA fB : bool) :
  isGameOver b fA fB = true <->
  (fA = true /\ fB = true)
  \/ getPlayerAShipCount b <= 0
  \/ getPlayerBShipCount b <= 0.
Proof.
  unfold isGameOver.
  destruct (isPlayerShipsLeft b A) eqn:EA, (isPlayerShipsLeft b B) eqn:EB;
    destruct fA, fB; cbn;
    try apply isPlayerShipsLeft_A in EA; try apply isPlayerShipsLeft_B in EB;
    try (assert (~ 0 < getPlayerAShipCount b)
          by (rewrite <- isPlayerShipsLeft_A; congruence));
    try (assert (~ 0 < getPlayerBShipCount b)
          by (rewrite <- isPlayerShipsLeft_B; congruence));
    split; intros; try reflexivity; try discriminate;
    try (intuition (try discriminate; lia)).
Qed.

(** C1. For every board (whose ship counts, being counts, are not negative)
    and every pair of forfeit flags, [isGameOver] is [true] if and only if
    both flags are set or the ship count of player A is zero or the ship
    count of player B is zero, and is [false] otherwise; [isPlayerShipsLeft]
    tells, for each player, whether the player's ship count is strictly
    positive. *)
Theorem isGameOver_iff (b : Board) (fA fB : bool) :
  0 <= getPlayerAShipCount b ->
  0 <= getPlayerBShipCount b ->
  (isGameOver b fA fB = true <->
   (fA = true /\ fB = true)
   \/ getPlayerAShipCount b = 0
   \/ getPlayerBShipCount b = 0)
  /\ (isGameOver b fA fB = false <->
      ~ ((fA = true /\ fB = true)
         \/ getPlayerAShipCount b = 0
         \/ getPlayerBShipCount b = 0))
  /\ isPlayerShipsLeft b A = (0 <? getPlayerAShipCount b)
  /\ isPlayerShipsLeft b B = (0 <? getPlayerBShipCount b).
Proof.
  intros HA HB.
  assert (Hiff : isGameOver b fA fB = true <->
                 (fA = true /\ fB = true)
                 \/ getPlayerAShipCount b = 0
                 \/ getPlayerBShipCount b = 0).
  { rewrite isGameOver_spec. intuition lia. }
  split; [exact Hiff|]. split.
  - rewrite <- Hiff. destruct (isGameOver b fA fB); split; congruence.
  - unfold isPlayerShipsLeft. rewrite !Z.gtb_ltb. split; reflexivity.
Qed.

End GameOver.

Section SwitchPlayerTurns.

Variables playerA playerB : addr.

Lemma switch_from_A (fA fB : bool) :
  switchPlayerTurns playerA playerB playerA fA fB =
  if negb fB then playerB else if negb fA then playerA else playerB.
Proof. unfold switchPlayerTurns. rewrite Nat.eqb_refl. reflexivity. Qed.

Lemma switch_from_other (cur : addr) (fA fB : bool) :
  cur <> playerA ->
  switchPlayerTurns playerA playerB cur fA fB =
  if negb fA then playerA else playerB.
Proof.
  intros H. unfold switchPlayerTurns.
  apply Nat.eqb_neq in H. rewrite H. reflexivity.
Qed.

Lemma switch_is_a_player (cur : addr) (fA fB : bool) :
  switchPlayerTurns playerA playerB cur fA fB = playerA
  \/ switchPlayerTurns playerA playerB cur fA fB = playerB.
Proof.
  unfold switchPlayerTurns.
  destruct ((cur =? playerA)%nat && negb fB), (negb fA); auto.
Qed.

(** C3. The next player is a function of the current player and of the two
    forfeit flags, with this priority: when the current player is A and B has
    not forfeited, it is B; otherwise, when A has not forfeited, it is A;
    otherwise it is B.  For the current player A, with A not forfeited and B
    forfeited, it is A. *)
Theorem switchPlayerTurns_priority (currPlayer : addr) (fA fB : bool) :
  (currPlayer = playerA /\ fB = false ->
   switchPlayerTurns playerA playerB currPlayer fA fB = playerB)
  /\ (~ (currPlayer = playerA /\ fB = false) -> fA = false ->
      switchPlayerTurns playerA playerB currPlayer fA fB = playerA)
  /\ (~ (currPlayer = playerA /\ fB = false) -> fA = true ->
      switchPlayerTurns playerA playerB currPlayer fA fB = playerB)
  /\ switchPlayerTurns playerA playerB playerA false true = playerA.
Proof.
  unfold switchPlayerTurns. repeat split.
  - intros [-> ->]. rewrite Nat.eqb_refl. reflexivity.
  - intros Hn ->. destruct (Nat.eqb_spec currPlayer playerA); cbn.
    + destruct fB; cbn; [reflexivity | exfalso; auto].
    + reflexivity.
  - intros Hn ->. destruct (Nat.eqb_spec currPlayer playerA); cbn.
    + destruct fB; cbn; [reflexivity | exfalso; auto].
    + reflexivity.
  - rewrite Nat.eqb_refl. reflexivity.
Qed.

End SwitchPlayerTurns.

(** ** The loop of [startGame] *)

Section Match.

Context {Board Matrix Algo Visual : Type}.
Context `{BB : BattleBoard Board Matrix}.
Context `{PL : IBattleshipGameAlgo Algo Matrix}.
Context `{GV : IGameVisual Visual Board}.

Variable BOARD_SIZE : Z.
Variable FORFEIT : Z * Z.
Variables playerA playerB : addr.

Local Abbreviation State := (@GameState Board Algo Visual).
Local Abbreviation body := (loop_body FORFEIT playerA playerB).
Local Abbreviation asked st := (fst (call_attack (players st) (currentPlayer st))).
Local Abbreviation number st := (attackingPlayerNumberOf playerB (currentPlayer st)).
Local Abbreviation piece st :=
  (snd (executeAttack (board st) (normalize (asked st)))).
Local Abbreviation flag := (forfeited playerA playerB).

(** The events of a resolved attack, after the call of [attack]. *)
Local Abbreviation resolved_events st :=
  [CallExecuteAttack (normalize (asked st));
   CallNotifyOnAttackResult playerA (number st)
     (fst (normalize (asked st))) (snd (normalize (asked st)))
     (attackResultOf (piece st));
   CallNotifyOnAttackResult playerB (number st)
     (fst (normalize (asked st))) (snd (normalize (asked st)))
     (attackResultOf (piece st));
   CallVisualizeAttackResults
     (fst (normalize (asked st))) (snd (normalize (asked st)))
     (attackResultOf (piece st))].

Lemma body_forfeit (st : State) :
  asked st = FORFEIT ->
  body st =
  mkGameState (this st) (board st)
    (snd (call_attack (players st) (currentPlayer st))) (visualizer st)
    (switchPlayerTurns playerA playerB (currentPlayer st)
       (if (currentPlayer st =? playerA)%nat then true
        else isPlayerAForfeit st)
       (if (currentPlayer st =? playerA)%nat then isPlayerBForfeit st
        else true))
    (if (currentPlayer st =? playerA)%nat then true else isPlayerAForfeit st)
    (if (currentPlayer st =? playerA)%nat then isPlayerBForfeit st else true)
    (trace st ++ [CallAttack (currentPlayer st) FORFEIT]).
Proof.
  intros E. unfold loop_body.
  rewrite (proj2 (target_eqb_eq _ _) E). rewrite E. reflexivity.
Qed.

Lemma body_attack_trace (st : State) :
  asked st <> FORFEIT ->
  trace (body st) =
  trace st ++ CallAttack (currentPlayer st) (asked st) :: resolved_events st.
Proof.
  intros E. unfold loop_body.
  rewrite (proj2 (target_eqb_neq _ _) E). cbn [trace].
  rewrite <- app_assoc. reflexivity.
Qed.

Lemma body_attack_board (st : State) :
  asked st <> FORFEIT ->
  board (body st) = fst (executeAttack (board st) (normalize (asked st))).
Proof.
  intros E. unfold loop_body.
  rewrite (proj2 (target_eqb_neq _ _) E). reflexivity.
Qed.

Lemma body_attack_visualizer (st : State) :
  asked st <> FORFEIT ->
  visualizer (body st) =
  visualizeAttackResults (fst (normalize (asked st)))
    (snd (normalize (asked st))) (attackResultOf (piece st)) (visualizer st).
Proof.
  intros E. unfold loop_body.
  rewrite (proj2 (target_eqb_neq _ _) E). reflexivity.
Qed.

Lemma body_attack_players (st : State) :
  asked st <> FORFEIT ->
  players (body st) =
  call_notifyOnAttackResult
    (call_notifyOnAttackResult
       (snd (call_attack (players st) (currentPlayer st)))
       playerA (number st) (fst (normalize (asked st)))
       (snd (normalize (asked st))) (attackResultOf (piece st)))
    playerB (number st) (fst (normalize (asked st)))
    (snd (normalize (asked st))) (attackResultOf (piece st)).
Proof.
  intros E. unfold loop_body.
  rewrite (proj2 (target_eqb_neq _ _) E). reflexivity.
Qed.

Lemma body_attack_flags (st : State) :
  asked st <> FORFEIT ->
  isPlayerAForfeit (body st) = isPlayerAForfeit st
  /\ isPlayerBForfeit (body st) = isPlayerBForfeit st.
Proof.
  intros E. unfold loop_body.
  rewrite (proj2 (target_eqb_neq _ _) E). split; reflexivity.
Qed.

Lemma body_attack_current (st : State) :
  asked st <> FORFEIT ->
  currentPlayer (body st) =
  match piece st with
  | None => switchPlayerTurns playerA playerB (currentPlayer st)
              (isPlayerAForfeit st) (isPlayerBForfeit st)
  | Some _ => currentPlayer st
  end.
Proof.
  intros E. unfold loop_body.
  rewrite (proj2 (target_eqb_neq _ _) E). reflexivity.
Qed.

Lemma body_this (st : State) : this (body st) = this st.
Proof.
  unfold loop_body.
  destruct (target_eqb (asked st) FORFEIT); reflexivity.
Qed.

(** The trace grows: a run of the body starts with a call of [attack] on
    the current player and goes on with calls that are no [attack]. *)
Lemma body_trace (st : State) :
  exists rest,
    trace (body st) =
    trace st ++ CallAttack (currentPlayer st) (asked st) :: rest
    /\ (forall p, forallb (fun e => negb (is_attack_call_on p e)) rest = true)
    /\ forallb (fun e => negb (is_end_game_call e)) rest = true
    /\ forallb (fun e => negb (is_score_call e)) rest = true.
Proof.
  destruct (target_eqb (asked st) FORFEIT) eqn:E.
  - apply target_eqb_eq in E. exists []. rewrite (body_forfeit st E).
    cbn [trace]. rewrite E. repeat split; reflexivity.
  - apply target_eqb_neq in E. exists (resolved_events st).
    rewrite (body_attack_trace st E). repeat split; reflexivity.
Qed.

Lemma outcome_forfeit (st : State) :
  outcome FORFEIT st = Forfeited <-> asked st = FORFEIT.
Proof.
  unfold outcome. destruct (target_eqb (asked st) FORFEIT) eqn:E.
  - apply target_eqb_eq in E. tauto.
  - apply target_eqb_neq in E. split; [discriminate | tauto].
Qed.

Lemma outcome_resolved (st : State) (r : AttackResult) :
  outcome FORFEIT st = Resolved r <->
  asked st <> FORFEIT /\ attackResultOf (piece st) = r.
Proof.
  unfold outcome. destruct (target_eqb (asked st) FORFEIT) eqn:E.
  - apply target_eqb_eq in E. split; [discriminate | tauto].
  - apply target_eqb_neq in E. split.
    + intros H; inversion H; auto.
    + intros [_ ->]; reflexivity.
Qed.

Lemma attackResultOf_Miss (p : option GamePiece) :
  attackResultOf p = Miss <-> p = None.
Proof.
  destruct p as [g|]; cbn.
  - destruct (_lifeLeft g =? 0); split; discriminate.
  - tauto.
Qed.

(** The flags are never reset. *)
Lemma body_flags_kept (st : State) :
  (isPlayerAForfeit st = true -> isPlayerAForfeit (body st) = true)
  /\ (isPlayerBForfeit st = true -> isPlayerBForfeit (body st) = true).
Proof.
  destruct (target_eqb (asked st) FORFEIT) eqn:E.
  - apply target_eqb_eq in E. rewrite (body_forfeit st E).
    cbn [isPlayerAForfeit isPlayerBForfeit].
    destruct (currentPlayer st =? playerA)%nat; auto.
  - apply target_eqb_neq in E.
    destruct (body_attack_flags st E) as [-> ->]. auto.
Qed.

Lemma flag_kept (st : State) (p : addr) :
  flag st p = true -> flag (body st) p = true.
Proof.
  unfold forfeited. destruct (body_flags_kept st) as [HA HB].
  rewrite !orb_true_iff, !andb_true_iff. intuition.
Qed.

(** *** The states of a match *)

Local Abbreviation reach := (reachable BOARD_SIZE FORFEIT playerA playerB).

Lemma flag_A (st : State) :
  playerA <> playerB -> flag st playerA = isPlayerAForfeit st.
Proof.
  intros D. unfold forfeited. rewrite Nat.eqb_refl.
  apply Nat.eqb_neq in D. rewrite D. cbn.
  apply orb_false_r.
Qed.

Lemma flag_B (st : State) :
  playerA <> playerB -> flag st playerB = isPlayerBForfeit st.
Proof.
  intros D. unfold forfeited. rewrite Nat.eqb_refl.
  assert (D' : playerB <> playerA) by congruence.
  apply Nat.eqb_neq in D'. rewrite D'. reflexivity.
Qed.

Lemma loop_cond_not_both (st : State) :
  loop_cond st = true ->
  isPlayerAForfeit st = false \/ isPlayerBForfeit st = false.
Proof.
  unfold loop_cond, isGameOver.
  destruct (isPlayerAForfeit st), (isPlayerBForfeit st); cbn; auto.
Qed.

(** The invariant of the loop: the current player is one of the two
    players and, unless both players have forfeited, has not forfeited. *)
Lemma reachable_current (mgr : GameManager) (b : Board) (h : Store)
      (v : Visual) (st : State) :
  playerA <> playerB ->
  reach mgr b h v st ->
  (currentPlayer st = playerA \/ currentPlayer st = playerB)
  /\ (flag st (currentPlayer st) = true ->
      isPlayerAForfeit st = true /\ isPlayerBForfeit st = true).
Proof.
  intros D R. induction R as [|st R [IHc IHf] C].
  - cbn. split; [auto|]. rewrite flag_A by assumption. cbn. discriminate.
  - assert (Hcur : flag st (currentPlayer st) = false).
    { destruct (flag st (currentPlayer st)) eqn:F; [|reflexivity].
      destruct (IHf eq_refl) as [HA HB].
      destruct (loop_cond_not_both st C); congruence. }
    clear IHf.
    destruct (target_eqb (asked st) FORFEIT) eqn:E.
    + apply target_eqb_eq in E. rewrite (body_forfeit st E).
      cbn [currentPlayer].
      destruct IHc as [Hc|Hc]; rewrite Hc in *.
      * rewrite Nat.eqb_refl, switch_from_A.
        destruct (isPlayerBForfeit st) eqn:FB; cbn -[forfeited];
          rewrite ?flag_A, ?flag_B by assumption; cbn; auto.
      * assert (NA : (playerB =? playerA)%nat = false)
          by (apply Nat.eqb_neq; congruence).
        rewrite NA, switch_from_other by congruence.
        destruct (isPlayerAForfeit st) eqn:FA; cbn -[forfeited];
          rewrite ?flag_A, ?flag_B by assumption; cbn; auto.
    + apply target_eqb_neq in E.
      rewrite (body_attack_current st E).
      assert (HfA : flag (body st) playerA = isPlayerAForfeit st).
      { rewrite flag_A by assumption. apply (body_attack_flags st E). }
      assert (HfB : flag (body st) playerB = isPlayerBForfeit st).
      { rewrite flag_B by assumption. apply (body_attack_flags st E). }
      destruct (body_attack_flags st E) as [-> ->].
      destruct (piece st) as [g|].
      * split; [assumption|].
        destruct IHc as [Hc|Hc]; rewrite Hc in *.
        -- rewrite HfA. rewrite flag_A in Hcur by assumption. congruence.
        -- rewrite HfB. rewrite flag_B in Hcur by assumption. congruence.
      * destruct IHc as [Hc|Hc]; rewrite Hc in *.
        -- rewrite switch_from_A. rewrite flag_A in Hcur by assumption.
           rewrite Hcur.
           destruct (isPlayerBForfeit st) eqn:FB; cbn;
             rewrite ?HfA, ?HfB; split; auto; congruence.
        -- rewrite switch_from_other by congruence.
           rewrite flag_B in Hcur by assumption.
           destruct (isPlayerAForfeit st) eqn:FA; cbn;
             rewrite ?HfA, ?HfB; split; auto; congruence.
Qed.

(** Whoever is asked to attack has not forfeited. *)
Lemma reachable_current_plays (mgr : GameManager) (b : Board) (h : Store)
      (v : Visual) (st : State) :
  playerA <> playerB ->
  reach mgr b h v st ->
  loop_cond st = true ->
  flag st (currentPlayer st) = false.
Proof.
  intros D R C.
  destruct (reachable_current mgr b h v st D R) as [_ Hf].
  destruct (flag st (currentPlayer st)) eqn:F; [|reflexivity].
  destruct (Hf eq_refl) as [HA HB].
  destruct (loop_cond_not_both st C); congruence.
Qed.

(** *** Turns *)

Lemma opponent_A : opponent playerA playerB playerA = playerB.
Proof. unfold opponent. rewrite Nat.eqb_refl. reflexivity. Qed.

Lemma opponent_B :
  playerA <> playerB -> opponent playerA playerB playerB = playerA.
Proof.
  intros D. unfold opponent.
  assert (N : (playerB =? playerA)%nat = false)
    by (apply Nat.eqb_neq; congruence).
  rewrite N. reflexivity.
Qed.

(** A hit or a sink leaves the turn with the attacker, in any state. *)
Lemma hit_or_sink_keeps_turn (st : State) :
  outcome FORFEIT st = Resolved Hit \/ outcome FORFEIT st = Resolved Sink ->
  currentPlayer (body st) = currentPlayer st.
Proof.
  intros [H|H]; apply outcome_resolved in H; destruct H as [E R];
    rewrite (body_attack_current st E);
    destruct (piece st); try reflexivity; discriminate.
Qed.

(** C2, as amended. In every iteration of the loop of [startGame], a hit or
    a sink leaves the active player unchanged; a miss or a forfeit makes the
    other player active when that player has not forfeited; when the other
    player has forfeited already, a miss leaves the active player unchanged
    and a forfeit ends the match. *)
Theorem turn_after_outcome (mgr : GameManager) (b : Board) (h : Store)
        (v : Visual) (st : State) :
  playerA <> playerB ->
  reachable BOARD_SIZE FORFEIT playerA playerB mgr b h v st ->
  loop_cond st = true ->
  (outcome FORFEIT st = Resolved Hit \/ outcome FORFEIT st = Resolved Sink ->
   currentPlayer (loop_body FORFEIT playerA playerB st) = currentPlayer st)
  /\ (outcome FORFEIT st = Resolved Miss \/ outcome FORFEIT st = Forfeited ->
      forfeited playerA playerB st
                (opponent playerA playerB (currentPlayer st)) = false ->
      currentPlayer (loop_body FORFEIT playerA playerB st) =
      opponent playerA playerB (currentPlayer st))
  /\ (outcome FORFEIT st = Resolved Miss ->
      forfeited playerA playerB st
                (opponent playerA playerB (currentPlayer st)) = true ->
      currentPlayer (loop_body FORFEIT playerA playerB st) = currentPlayer st)
  /\ (outcome FORFEIT st = Forfeited ->
      forfeited playerA playerB st
                (opponent playerA playerB (currentPlayer st)) = true ->
      loop_cond (loop_body FORFEIT playerA playerB st) = false).
Proof.
  intros D R C.
  pose proof (reachable_current_plays mgr b h v st D R C) as Hcur.
  destruct (reachable_current mgr b h v st D R) as [Hc _].
  split; [apply hit_or_sink_keeps_turn|].
  assert (NB : (playerB =? playerA)%nat = false)
    by (apply Nat.eqb_neq; congruence).
  split; [|split].
  - intros [H|H] Hop.
    + apply outcome_resolved in H. destruct H as [E Rm].
      apply attackResultOf_Miss in Rm.
      rewrite (body_attack_current st E), Rm.
      destruct Hc as [Hc|Hc]; rewrite Hc in *.
      * rewrite opponent_A in *. rewrite flag_B in Hop by assumption.
        rewrite switch_from_A, Hop. reflexivity.
      * rewrite opponent_B in * by assumption.
        rewrite flag_A in Hop by assumption.
        rewrite switch_from_other, Hop by congruence. reflexivity.
    + apply outcome_forfeit in H. rewrite (body_forfeit st H).
      cbn [currentPlayer].
      destruct Hc as [Hc|Hc]; rewrite Hc in *.
      * rewrite opponent_A in *. rewrite flag_B in Hop by assumption.
        rewrite Nat.eqb_refl, switch_from_A, Hop. reflexivity.
      * rewrite opponent_B in * by assumption.
        rewrite flag_A in Hop by assumption.
        rewrite NB, switch_from_other, Hop by congruence. reflexivity.
  - intros H Hop. apply outcome_resolved in H. destruct H as [E Rm].
    apply attackResultOf_Miss in Rm.
    rewrite (body_attack_current st E), Rm.
    destruct Hc as [Hc|Hc]; rewrite Hc in *.
    + rewrite opponent_A in *. rewrite flag_B in Hop by assumption.
      rewrite flag_A in Hcur by assumption.
      rewrite switch_from_A, Hop, Hcur. reflexivity.
    + rewrite opponent_B in * by assumption.
      rewrite flag_A in Hop by assumption.
      rewrite switch_from_other, Hop by congruence. reflexivity.
  - intros H Hop. apply outcome_forfeit in H. rewrite (body_forfeit st H).
    unfold loop_cond, isGameOver.
    cbn [board isPlayerAForfeit isPlayerBForfeit].
    destruct Hc as [Hc|Hc]; rewrite Hc in *.
    + rewrite opponent_A in *. rewrite flag_B in Hop by assumption.
      rewrite Nat.eqb_refl, Hop. reflexivity.
    + rewrite opponent_B in * by assumption.
      rewrite flag_A in Hop by assumption.
      rewrite NB, Hop. reflexivity.
Qed.

(** *** The target of an attack *)

(** C5. A target that [attack] returns and that is not the forfeit pair is
    decremented, in both coordinates, before it is passed to
    [executeAttack]; the target [(1,1)] is applied to the board as
    [(0,0)]. *)
Theorem attack_target_normalized (st : State) (t : Z * Z) :
  fst (call_attack (players st) (currentPlayer st)) = t ->
  t <> FORFEIT ->
  board (loop_body FORFEIT playerA playerB st) =
  fst (executeAttack (board st) (normalize t))
  /\ (exists rest,
         trace (loop_body FORFEIT playerA playerB st) =
         trace st ++ CallAttack (currentPlayer st) t
                  :: CallExecuteAttack (normalize t) :: rest
         /\ forall t', ~ In (CallExecuteAttack t') rest)
  /\ (Int.min_int < fst t <= Int.max_int ->
      Int.min_int < snd t <= Int.max_int ->
      normalize t = (fst t - 1, snd t - 1))
  /\ (t = (1, 1) -> normalize t = (0, 0)).
Proof.
  intros Et E. subst t. split; [apply (body_attack_board st E)|].
  split; [|split].
  - eexists. split; [apply (body_attack_trace st E)|].
    intros t' [H|[H|[H|[]]]]; discriminate.
  - intros H1 H2. unfold normalize. rewrite !dec_pred by assumption.
    reflexivity.
  - intros ->. reflexivity.
Qed.

(** *** The notifications of an attack *)

Lemma store_get_set (h : Store) (p : addr) (o : Algo) :
  store_set h p o p = o.
Proof. unfold store_set. rewrite Nat.eqb_refl. reflexivity. Qed.

Lemma store_get_set_other (h : Store) (p q : addr) (o : Algo) :
  q <> p -> store_set h p o q = h q.
Proof.
  intros N. unfold store_set. apply Nat.eqb_neq in N. rewrite N.
  reflexivity.
Qed.

(** C6. For every resolved attack of a match, both strategies are notified
    and the visualizer is shown the result, each with the same 0-based
    coordinates and the same outcome; the strategies are told [0] when the
    attacker is player A and [1] when the attacker is player B. *)
Theorem attack_result_notified (mgr : GameManager) (b : Board) (h : Store)
        (v : Visual) (st : State) (t : Z * Z) :
  playerA <> playerB ->
  reachable BOARD_SIZE FORFEIT playerA playerB mgr b h v st ->
  fst (call_attack (players st) (currentPlayer st)) = t ->
  t <> FORFEIT ->
  let row := fst (normalize t) in
  let col := snd (normalize t) in
  let result :=
    attackResultOf (snd (executeAttack (board st) (normalize t))) in
  let asked_players := snd (call_attack (players st) (currentPlayer st)) in
  exists n : Z,
    ((currentPlayer st = playerA /\ n = 0)
     \/ (currentPlayer st = playerB /\ n = 1))
    /\ trace (loop_body FORFEIT playerA playerB st) =
       trace st ++ [CallAttack (currentPlayer st) t;
                    CallExecuteAttack (row, col);
                    CallNotifyOnAttackResult playerA n row col result;
                    CallNotifyOnAttackResult playerB n row col result;
                    CallVisualizeAttackResults row col result]
    /\ players (loop_body FORFEIT playerA playerB st) playerA =
       notifyOnAttackResult n row col result (asked_players playerA)
    /\ players (loop_body FORFEIT playerA playerB st) playerB =
       notifyOnAttackResult n row col result (asked_players playerB)
    /\ visualizer (loop_body FORFEIT playerA playerB st) =
       visualizeAttackResults row col result (visualizer st).
Proof.
  intros D R Et E. subst t. cbn zeta.
  exists (attackingPlayerNumberOf playerB (currentPlayer st)).
  split; [|split; [|split; [|split]]].
  - destruct (reachable_current mgr b h v st D R) as [[Hc|Hc] _].
    + left. split; [assumption|]. unfold attackingPlayerNumberOf.
      rewrite Hc. apply Nat.eqb_neq in D. rewrite D. reflexivity.
    + right. split; [assumption|]. unfold attackingPlayerNumberOf.
      rewrite Hc, Nat.eqb_refl. reflexivity.
  - rewrite (body_attack_trace st E), <- surjective_pairing. reflexivity.
  - rewrite (body_attack_players st E). unfold call_notifyOnAttackResult.
    rewrite store_get_set_other by assumption.
    rewrite store_get_set. reflexivity.
  - rewrite (body_attack_players st E). unfold call_notifyOnAttackResult.
    rewrite store_get_set.
    rewrite store_get_set_other by congruence. reflexivity.
  - apply (body_attack_visualizer st E).
Qed.

(** C8. When [executeAttack] returns no piece, the attack is a miss:
    [notifyOnAttackResult] is called on both strategy objects and
    [visualizeAttackResults] on the visualizer, each with
    [AttackResult::Miss], the flags stay as they are and the loop goes on to
    its next test; nothing else happens, whatever the cell that was
    attacked. *)
Theorem null_piece_is_miss (st : State) (t : Z * Z) :
  fst (call_attack (players st) (currentPlayer st)) = t ->
  t <> FORFEIT ->
  snd (executeAttack (board st) (normalize t)) = None ->
  outcome FORFEIT st = Resolved Miss
  /\ trace (loop_body FORFEIT playerA playerB st) =
     trace st ++ [CallAttack (currentPlayer st) t;
                  CallExecuteAttack (normalize t);
                  CallNotifyOnAttackResult playerA
                    (attackingPlayerNumberOf playerB (currentPlayer st))
                    (fst (normalize t)) (snd (normalize t)) Miss;
                  CallNotifyOnAttackResult playerB
                    (attackingPlayerNumberOf playerB (currentPlayer st))
                    (fst (normalize t)) (snd (normalize t)) Miss;
                  CallVisualizeAttackResults
                    (fst (normalize t)) (snd (normalize t)) Miss]
  /\ visualizer (loop_body FORFEIT playerA playerB st) =
     visualizeAttackResults (fst (normalize t)) (snd (normalize t)) Miss
                            (visualizer st)
  /\ isPlayerAForfeit (loop_body FORFEIT playerA playerB st) =
     isPlayerAForfeit st
  /\ isPlayerBForfeit (loop_body FORFEIT playerA playerB st) =
     isPlayerBForfeit st
  /\ players (loop_body FORFEIT playerA playerB st) playerB =
     notifyOnAttackResult
       (attackingPlayerNumberOf playerB (currentPlayer st))
       (fst (normalize t)) (snd (normalize t)) Miss
       (call_notifyOnAttackResult
          (snd (call_attack (players st) (currentPlayer st))) playerA
          (attackingPlayerNumberOf playerB (currentPlayer st))
          (fst (normalize t)) (snd (normalize t)) Miss playerB)
  /\ (playerA <> playerB ->
      players (loop_body FORFEIT playerA playerB st) playerA =
      notifyOnAttackResult
        (attackingPlayerNumberOf playerB (currentPlayer st))
        (fst (normalize t)) (snd (normalize t)) Miss
        (snd (call_attack (players st) (currentPlayer st)) playerA)
      /\ players (loop_body FORFEIT playerA playerB st) playerB =
         notifyOnAttackResult
           (attackingPlayerNumberOf playerB (currentPlayer st))
           (fst (normalize t)) (snd (normalize t)) Miss
           (snd (call_attack (players st) (currentPlayer st)) playerB)).
Proof.
  intros Et E N. subst t.
  split; [|split; [|split; [|split; [|split; [|split]]]]].
  - apply outcome_resolved. split; [assumption|]. rewrite N. reflexivity.
  - rewrite (body_attack_trace st E), N. reflexivity.
  - rewrite (body_attack_visualizer st E), N. reflexivity.
  - apply (body_attack_flags st E).
  - apply (body_attack_flags st E).
  - rewrite (body_attack_players st E), N.
    unfold call_notifyOnAttackResult at 1. rewrite store_get_set.
    reflexivity.
  - intros D. rewrite (body_attack_players st E), N.
    unfold call_notifyOnAttackResult. split.
    + rewrite store_get_set_other by assumption.
      rewrite store_get_set. reflexivity.
    + rewrite store_get_set.
      rewrite store_get_set_other by congruence. reflexivity.
Qed.

(** *** Forfeits *)

Lemma forfeit_sets_flag (st : State) :
  currentPlayer st = playerA \/ currentPlayer st = playerB ->
  asked st = FORFEIT ->
  flag (body st) (currentPlayer st) = true.
Proof.
  intros Hc E. rewrite (body_forfeit st E). unfold forfeited.
  cbn [isPlayerAForfeit isPlayerBForfeit].
  destruct (Nat.eqb_spec (currentPlayer st) playerA) as [e|n]; cbn.
  - reflexivity.
  - destruct Hc as [Hc|Hc]; [contradiction|].
    rewrite Hc, Nat.eqb_refl. reflexivity.
Qed.

Lemma not_attack_call_in (p : addr) (t : Z * Z) (l : list (Event Board)) :
  forallb (fun e => negb (is_attack_call_on p e)) l = true ->
  ~ In (CallAttack p t) l.
Proof.
  intros F I. rewrite forallb_forall in F. specialize (F _ I).
  cbn in F. rewrite Nat.eqb_refl in F. discriminate.
Qed.

(** A strategy that returned the forfeit pair has its flag set. *)
Lemma reachable_forfeit_recorded (mgr : GameManager) (b : Board) (h : Store)
      (v : Visual) (st : State) (p : addr) :
  playerA <> playerB ->
  reach mgr b h v st ->
  In (CallAttack p FORFEIT) (trace st) ->
  flag st p = true.
Proof.
  intros D R. induction R as [|st R IH C]; intros I.
  - cbn in I. destruct I as [I|[I|[]]]; discriminate.
  - destruct (body_trace st) as (rest & Etr & Hrest & _).
    rewrite Etr in I. apply in_app_or in I. destruct I as [I|[I|I]].
    + apply flag_kept. auto.
    + injection I as Hp Ht. rewrite <- Hp.
      apply forfeit_sets_flag; [|exact Ht].
      apply (reachable_current mgr b h v st D R).
    + exfalso. exact (not_attack_call_in p FORFEIT rest (Hrest p) I).
Qed.

(** After a strategy returned the forfeit pair, [attack] is not called on
    it any more. *)
Lemma reachable_no_attack_after_forfeit (mgr : GameManager) (b : Board)
      (h : Store) (v : Visual) (st : State) :
  playerA <> playerB ->
  reach mgr b h v st ->
  forall (before after : list (Event Board)) (p : addr) (t : Z * Z),
    trace st = before ++ CallAttack p FORFEIT :: after ->
    ~ In (CallAttack p t) after.
Proof.
  intros D R. induction R as [|st R IH C]; intros before after p t Es.
  - cbn in Es.
    destruct before as [|e1 [|e2 [|e3 before]]]; cbn in Es;
      try discriminate.
  - destruct (body_trace st) as (rest & Etr & Hrest & _).
    rewrite Etr in Es.
    apply app_eq_app in Es. destruct Es as (l & [[E1 E2]|[E1 E2]]).
    + destruct l as [|e l]; cbn in E2.
      * injection E2 as Hp Ht Hr. rewrite Hr.
        apply not_attack_call_in, Hrest.
      * injection E2 as He Hr. rewrite <- He in E1. rewrite Hr.
        intros I. apply in_app_or in I. destruct I as [I|[I|I]].
        -- exact (IH _ _ _ _ E1 I).
        -- injection I as Hp Ht.
           assert (F : flag st p = true).
           { apply (reachable_forfeit_recorded mgr b h v); auto.
             rewrite E1. apply in_or_app. right. left. reflexivity. }
           rewrite <- Hp in F.
           rewrite (reachable_current_plays mgr b h v st D R C) in F.
           discriminate.
        -- exact (not_attack_call_in p t rest (Hrest p) I).
    + destruct l as [|e l]; cbn in E2.
      * injection E2 as Hp Ht Hr. rewrite <- Hr.
        apply not_attack_call_in, Hrest.
      * injection E2 as He Hr. intros I.
        apply (not_attack_call_in p t rest (Hrest p)).
        rewrite Hr. apply in_or_app. right. right. assumption.
Qed.

(** C7. In every match, once a player has returned the forfeit pair, the
    forfeit flag of that player is set and stays set, and [attack] is not
    called on that player again: [attack] is called on the current player
    only, whose flag is not set whenever the loop body runs. *)
Theorem forfeit_is_permanent (mgr : GameManager) (b : Board) (h : Store)
        (v : Visual) (st : GameState) :
  playerA <> playerB ->
  reachable BOARD_SIZE FORFEIT playerA playerB mgr b h v st ->
  (forall p, In (CallAttack p FORFEIT) (trace st) ->
             forfeited playerA playerB st p = true)
  /\ (forall p, forfeited playerA playerB st p = true ->
                forfeited playerA playerB
                          (loop_body FORFEIT playerA playerB st) p = true)
  /\ (loop_cond st = true ->
      forfeited playerA playerB st (currentPlayer st) = false)
  /\ (forall before after p t,
         trace st = before ++ CallAttack p FORFEIT :: after ->
         ~ In (CallAttack p t) after).
Proof.
  intros D R. split; [|split; [|split]].
  - intros p. apply (reachable_forfeit_recorded mgr b h v); assumption.
  - intros p. apply flag_kept.
  - apply (reachable_current_plays mgr b h v); assumption.
  - apply (reachable_no_attack_after_forfeit mgr b h v); assumption.
Qed.

(** *** The whole loop *)

Local Abbreviation loop := (game_loop FORFEIT playerA playerB).
Local Abbreviation start_game :=
  (startGame BOARD_SIZE FORFEIT playerA playerB).
Local Abbreviation no_end_game_call l :=
  (forallb (fun e : Event Board => negb (is_end_game_call e)) l = true).
Local Abbreviation no_score_call l :=
  (forallb (fun e : Event Board => negb (is_score_call e)) l = true).

Lemma game_loop_left (fuel : nat) (st : State) :
  loop_cond (snd (loop fuel st)) = negb (fst (loop fuel st)).
Proof.
  revert st. induction fuel as [|fuel IH]; intros st; cbn;
    destruct (loop_cond st) eqn:C; cbn; auto.
Qed.

Lemma game_loop_reachable (mgr : GameManager) (b : Board) (h : Store)
      (v : Visual) (fuel : nat) (st : State) :
  reach mgr b h v st -> reach mgr b h v (snd (loop fuel st)).
Proof.
  revert st. induction fuel as [|fuel IH]; intros st R; cbn;
    destruct (loop_cond st) eqn:C; cbn; auto.
  apply IH. apply reachable_step; assumption.
Qed.

(** Once the loop was left, more fuel changes nothing. *)
Lemma game_loop_more_fuel (fuel fuel' : nat) (st : State) :
  (fuel <= fuel')%nat ->
  fst (loop fuel st) = true ->
  loop fuel' st = loop fuel st.
Proof.
  revert fuel' st. induction fuel as [|fuel IH]; intros fuel' st L F.
  - cbn in *. destruct (loop_cond st) eqn:C; [discriminate|].
    destruct fuel'; cbn; rewrite C; reflexivity.
  - destruct fuel' as [|fuel']; [lia|]. cbn in *.
    destruct (loop_cond st) eqn:C; [|reflexivity].
    apply IH; [lia | assumption].
Qed.

Lemma reachable_this (mgr : GameManager) (b : Board) (h : Store)
      (v : Visual) (st : State) :
  reach mgr b h v st -> this st = mgr.
Proof.
  intros R. induction R as [|st R IH C]; [reflexivity|].
  rewrite body_this. assumption.
Qed.

Lemma reachable_trace (mgr : GameManager) (b : Board) (h : Store)
      (v : Visual) (st : State) :
  reach mgr b h v st ->
  no_end_game_call (trace st) /\ no_score_call (trace st).
Proof.
  intros R. induction R as [|st R [IH1 IH2] C]; [split; reflexivity|].
  destruct (body_trace st) as (rest & Etr & _ & H1 & H2).
  rewrite Etr, !forallb_app. cbn [forallb is_end_game_call is_score_call].
  rewrite IH1, IH2, H1, H2. split; reflexivity.
Qed.

Lemma filter_none {X : Type} (f : X -> bool) (l : list X) :
  forallb (fun e => negb (f e)) l = true -> filter f l = [].
Proof.
  induction l as [|x l IH]; cbn; [reflexivity|].
  destruct (f x); cbn; [discriminate | assumption].
Qed.

(** C9, as amended. In every run of [startGame] that leaves the loop,
    [visualizeEndGame] is called exactly once, as the last call, when the
    game is over, with the board as it then is and the two forfeit flags; as
    long as the match is in progress (in every state in which the loop
    condition is evaluated, and in a run that has not left the loop) it was
    not called. *)
Theorem visualizeEndGame_exactly_once (fuel : nat) (mgr : GameManager)
        (b : Board) (h : Store) (v : Visual) :
  (fst (startGame BOARD_SIZE FORFEIT playerA playerB fuel mgr b h v) = true ->
   exists st : GameState,
     reachable BOARD_SIZE FORFEIT playerA playerB mgr b h v st
     /\ isGameOver (board st) (isPlayerAForfeit st) (isPlayerBForfeit st)
        = true
     /\ forallb (fun e => negb (is_end_game_call e)) (trace st) = true
     /\ trace (snd (startGame BOARD_SIZE FORFEIT playerA playerB
                              fuel mgr b h v)) =
        trace st ++ [CallVisualizeEndGame (board st) (isPlayerAForfeit st)
                                          (isPlayerBForfeit st)]
     /\ visualizer (snd (startGame BOARD_SIZE FORFEIT playerA playerB
                                   fuel mgr b h v)) =
        visualizeEndGame (board st) (isPlayerAForfeit st)
                         (isPlayerBForfeit st) (visualizer st)
     /\ List.length (filter is_end_game_call
                  (trace (snd (startGame BOARD_SIZE FORFEIT playerA playerB
                                         fuel mgr b h v)))) = 1%nat
     /\ forall fuel', (fuel <= fuel')%nat ->
          startGame BOARD_SIZE FORFEIT playerA playerB fuel' mgr b h v =
          startGame BOARD_SIZE FORFEIT playerA playerB fuel mgr b h v)
  /\ (fst (startGame BOARD_SIZE FORFEIT playerA playerB fuel mgr b h v)
      = false ->
      loop_cond (snd (startGame BOARD_SIZE FORFEIT playerA playerB
                                fuel mgr b h v)) = true
      /\ forallb (fun e => negb (is_end_game_call e))
           (trace (snd (startGame BOARD_SIZE FORFEIT playerA playerB
                                  fuel mgr b h v))) = true)
  /\ (forall st : GameState,
         reachable BOARD_SIZE FORFEIT playerA playerB mgr b h v st ->
         forallb (fun e => negb (is_end_game_call e)) (trace st) = true).
Proof.
  pose proof (game_loop_left fuel
                (initial_state BOARD_SIZE playerA playerB mgr b h v)) as L.
  pose proof (game_loop_reachable mgr b h v fuel _
                (reachable_init BOARD_SIZE FORFEIT playerA playerB
                                mgr b h v)) as R.
  unfold startGame.
  destruct (fst (loop fuel (initial_state BOARD_SIZE playerA playerB
                                          mgr b h v))) eqn:F;
    cbn [fst snd] in *.
  - split; [|split; [discriminate|]].
    + intros _. eexists. split; [exact R|].
      destruct (reachable_trace mgr b h v _ R) as [T _].
      split; [|split; [exact T|split; [reflexivity|split; [reflexivity|]]]].
      * unfold loop_cond in L. apply negb_false_iff in L. exact L.
      * split.
        -- cbn [end_game trace]. rewrite filter_app, (filter_none _ _ T).
           reflexivity.
        -- intros fuel' Hle.
           rewrite (game_loop_more_fuel fuel fuel' _ Hle F), F.
           reflexivity.
    + intros st Rst. apply (reachable_trace mgr b h v st Rst).
  - split; [discriminate|]. split.
    + intros _. split; [exact L|].
      apply (reachable_trace mgr b h v _ R).
    + intros st Rst. apply (reachable_trace mgr b h v st Rst).
Qed.

(** *** The manager object *)

Lemma body_with_manager (mgr' : GameManager) (st : State) :
  body (with_manager mgr' st) = with_manager mgr' (body st).
Proof.
  unfold loop_body, with_manager.
  cbn [this board players visualizer currentPlayer isPlayerAForfeit
       isPlayerBForfeit trace].
  destruct (target_eqb (asked st) FORFEIT); reflexivity.
Qed.

Lemma game_loop_with_manager (mgr' : GameManager) (fuel : nat) (st : State) :
  loop fuel (with_manager mgr' st)
  = (fst (loop fuel st), with_manager mgr' (snd (loop fuel st))).
Proof.
  revert st. induction fuel as [|fuel IH]; intros st; cbn [game_loop];
    change (loop_cond (with_manager mgr' st)) with (loop_cond st);
    destruct (loop_cond st); try reflexivity.
  rewrite body_with_manager. apply IH.
Qed.

(** C10. [startGame] leaves the win counters [_playerAWins] and
    [_playerBWins] of the manager as they were and does not read them (the
    run from a manager with other counters makes the same calls and reaches
    the same board, objects, flags and current player), and it calls neither
    [updateScoreboard] nor [updateCurrentGamePoints]. *)
Theorem startGame_keeps_win_counters (fuel : nat) (mgr : GameManager)
        (b : Board) (h : Store) (v : Visual) :
  this (snd (startGame BOARD_SIZE FORFEIT playerA playerB fuel mgr b h v))
  = mgr
  /\ _playerAWins
       (this (snd (startGame BOARD_SIZE FORFEIT playerA playerB
                             fuel mgr b h v))) = _playerAWins mgr
  /\ _playerBWins
       (this (snd (startGame BOARD_SIZE FORFEIT playerA playerB
                             fuel mgr b h v))) = _playerBWins mgr
  /\ forallb (fun e => negb (is_score_call e))
       (trace (snd (startGame BOARD_SIZE FORFEIT playerA playerB
                              fuel mgr b h v))) = true
  /\ (forall mgr' : GameManager,
         startGame BOARD_SIZE FORFEIT playerA playerB fuel mgr' b h v
         = (fst (startGame BOARD_SIZE FORFEIT playerA playerB
                           fuel mgr b h v),
            with_manager mgr'
              (snd (startGame BOARD_SIZE FORFEIT playerA playerB
                              fuel mgr b h v)))).
Proof.
  pose proof (game_loop_reachable mgr b h v fuel _
                (reachable_init BOARD_SIZE FORFEIT playerA playerB
                                mgr b h v)) as R.
  pose proof (reachable_this mgr b h v _ R) as T.
  destruct (reachable_trace mgr b h v _ R) as [_ S].
  assert (E : this (snd (start_game fuel mgr b h v)) = mgr).
  { unfold startGame. destruct (fst (loop fuel _)); cbn; exact T. }
  split; [exact E|]. rewrite E. split; [reflexivity|].
  split; [reflexivity|]. split.
  - unfold startGame. destruct (fst (loop fuel _)); cbn [snd end_game trace].
    + rewrite forallb_app, S. reflexivity.
    + exact S.
  - intros mgr'. unfold startGame.
    change (initial_state BOARD_SIZE playerA playerB mgr' b h v)
      with (with_manager mgr'
              (initial_state BOARD_SIZE playerA playerB mgr b h v)).
    rewrite game_loop_with_manager. cbn [fst snd].
    destruct (fst (loop fuel _)); reflexivity.
Qed.

End Match.

(** ** The statistics of a round *)

Section RatingOrder.

Import Scoreboard.

Ltac cmp_cases :=
  repeat match goal with
  | |- context [Z.compare ?a ?b] => destruct (Z.compare_spec a b)
  | H : context [Z.compare ?a ?b] |- _ => destruct (Z.compare_spec a b)
  | |- context [Pos.compare ?a ?b] => destruct (Pos.compare_spec a b)
  | H : context [Pos.compare ?a ?b] |- _ => destruct (Pos.compare_spec a b)
  end.

(** [<] on floats is a strict order (a NaN is related to nothing). *)
Lemma SFltb_asym (x y : spec_float) : SFltb x y = true -> SFltb y x = false.
Proof.
  unfold SFltb, SFcompare.
  destruct x as [sx|sx| |sx mx ex], y as [sy|sy| |sy my ey];
    try destruct sx; try destruct sy; cbn; try discriminate; try reflexivity;
    change (Pos.compare_cont Eq) with Pos.compare;
    cmp_cases; cbn; intros; try discriminate; try reflexivity; try lia.
Qed.

Lemma SFltb_irrefl (x : spec_float) : SFltb x x = false.
Proof.
  destruct (SFltb x x) eqn:E; [|reflexivity].
  rewrite (SFltb_asym x x E) in E. discriminate.
Qed.

Lemma SFltb_trans (x y z : spec_float) :
  SFltb x y = true -> SFltb y z = true -> SFltb x z = true.
Proof.
  unfold SFltb, SFcompare.
  destruct x as [sx|sx| |sx mx ex], y as [sy|sy| |sy my ey],
           z as [sz|sz| |sz mz ez];
    try destruct sx; try destruct sy; try destruct sz; cbn;
    try discriminate; try reflexivity; intros;
    try discriminate; try reflexivity;
    change (Pos.compare_cont Eq) with Pos.compare in *;
    cmp_cases; cbn in *; try discriminate; try reflexivity; try lia.
Qed.

Lemma set_insert_In {Key : Type} (Compare : Key -> Key -> bool)
      (x z : Key) (s : list Key) :
  In z (set_insert Compare x s) -> z = x \/ In z s.
Proof.
  induction s as [|y s IH]; cbn.
  - intros [H|[]]; auto.
  - destruct (Compare x y); [|destruct (Compare y x)]; cbn.
    + intros [H|H]; auto.
    + intros [H|H]; auto. destruct (IH H); auto.
    + auto.
Qed.

Lemma set_insert_sorted (x : PlayerStatistics) (s : list PlayerStatistics) :
  StronglySorted rating_before s ->
  StronglySorted rating_before (set_insert PlayerStatisticsRatingSort x s).
Proof.
  induction 1 as [|y s S IH F]; cbn.
  - repeat constructor.
  - destruct (PlayerStatisticsRatingSort x y) eqn:Exy;
      [|destruct (PlayerStatisticsRatingSort y x) eqn:Eyx].
    + constructor; [constructor; assumption|].
      constructor; [exact Exy|].
      rewrite Forall_forall in *. intros z Hz.
      apply (SFltb_trans _ (rating y)); [exact Exy | exact (F z Hz)].
    + constructor; [assumption|].
      rewrite Forall_forall in *. intros z Hz.
      destruct (set_insert_In _ _ _ _ Hz) as [->|Hz']; [exact Eyx | auto].
    + constructor; assumption.
Qed.

Lemma set_of_sorted (xs : list PlayerStatistics) :
  StronglySorted rating_before (set_of PlayerStatisticsRatingSort xs).
Proof.
  unfold set_of.
  assert (G : forall s, StronglySorted rating_before s ->
                        StronglySorted rating_before
                          (fold_left
                             (fun s x =>
                                set_insert PlayerStatisticsRatingSort x s)
                             xs s)).
  { induction xs as [|x xs IH]; intros s S; cbn; [assumption|].
    apply IH, set_insert_sorted, S. }
  apply G. constructor.
Qed.

Lemma StronglySorted_nth {X : Type} (R : X -> X -> Prop) (l : list X) :
  StronglySorted R l ->
  forall (i j : nat) (a b : X),
    (i < j)%nat -> nth_error l i = Some a -> nth_error l j = Some b ->
    R a b.
Proof.
  induction 1 as [|x l S IH F]; intros i j a b L Ha Hb.
  - destruct i; discriminate.
  - destruct j as [|j]; [lia|]. cbn in Hb. destruct i as [|i]; cbn in Ha.
    + injection Ha as <-. rewrite Forall_forall in F.
      apply F. apply (nth_error_In _ _ Hb).
    + apply (IH i j); [lia | assumption | assumption].
Qed.

(** C4, as amended. The statistics of every [RoundResults] are ordered by
    rating (no entry comes after an entry of greater rating, nor before one
    of smaller rating), and by rating alone: [PlayerStatisticsRatingSort]
    looks at no other field, so that it orders two entries of equal rating
    neither way, whatever their names. *)
Theorem round_statistics_ordered_by_rating
        (aRoundNum : Z) (xs : list PlayerStatistics) :
  (forall (i j : nat) (a b : PlayerStatistics),
      (i < j)%nat ->
      nth_error (playerStatistics (roundResultsOf aRoundNum xs)) i = Some a ->
      nth_error (playerStatistics (roundResultsOf aRoundNum xs)) j = Some b ->
      PlayerStatisticsRatingSort b a = false)
  /\ (forall a b a' b' : PlayerStatistics,
         rating a = rating a' -> rating b = rating b' ->
         PlayerStatisticsRatingSort a b = PlayerStatisticsRatingSort a' b')
  /\ (forall a b : PlayerStatistics,
         rating a = rating b ->
         PlayerStatisticsRatingSort a b = false
         /\ PlayerStatisticsRatingSort b a = false).
Proof.
  split; [|split].
  - intros i j a b L Ha Hb. apply SFltb_asym.
    exact (StronglySorted_nth rating_before _ (set_of_sorted xs) i j a b L Ha Hb).
  - intros a b a' b' Ea Eb. unfold PlayerStatisticsRatingSort.
    rewrite Ea, Eb. reflexivity.
  - intros a b E. unfold PlayerStatisticsRatingSort. rewrite E.
    split; apply SFltb_irrefl.
Qed.

(** C4, as stated, fails: of two entries with the same rating and different
    names, the one inserted second is not retained, whichever it is, and the
    comparator does not order the two. *)
Lemma equal_ratings_are_not_both_retained :
  rating alice = rating bob
  /\ playerName alice <> playerName bob
  /\ playerStatistics (roundResultsOf 1 [alice; bob]) = [alice]
  /\ ~ In bob (playerStatistics (roundResultsOf 1 [alice; bob]))
  /\ playerStatistics (roundResultsOf 1 [bob; alice]) = [bob]
  /\ PlayerStatisticsRatingSort alice bob = false
  /\ PlayerStatisticsRatingSort bob alice = false.
Proof.
  repeat split; try reflexivity.
  - discriminate.
  - intros [H|[]]. discriminate.
Qed.

Lemma round_statistics_ordered_by_rating_witness :
  nth_error (playerStatistics (roundResultsOf 1 [alice; bob])) 0
  = Some alice
  /\ PlayerStatisticsRatingSort alice bob = false
  /\ PlayerStatisticsRatingSort bob alice = false.
Proof.
  split; [reflexivity|].
  apply (proj2 (proj2 (round_statistics_ordered_by_rating 1 [alice; bob]))).
  reflexivity.
Defined.

End RatingOrder.

(** ** Matches on a small board *)

Section SmallBoard.

Import Demo.

Lemma players_differ : pA <> pB.
Proof. discriminate. Qed.

Lemma isGameOver_iff_witness :
  0 <= getPlayerAShipCount duel
  /\ 0 <= getPlayerBShipCount duel
  /\ (isGameOver duel true true = true <->
      (true = true /\ true = true)
      \/ getPlayerAShipCount duel = 0
      \/ getPlayerBShipCount duel = 0).
Proof.
  split; [cbn; lia|]. split; [cbn; lia|].
  apply (isGameOver_iff duel true true); cbn; lia.
Defined.

Lemma switchPlayerTurns_priority_witness :
  switchPlayerTurns pA pB pA false false = pB.
Proof.
  apply (proj1 (switchPlayerTurns_priority pA pB pA false false)).
  split; reflexivity.
Defined.

Lemma after_forfeit_of_A_reachable :
  reachable 10 FORFEIT pA pB newGameManager duel (store [] [(3, 3)]) v0
            after_forfeit_of_A.
Proof. apply reachable_step; [apply reachable_init | reflexivity]. Qed.

Lemma after_miss_of_B_reachable :
  reachable 10 FORFEIT pA pB newGameManager duel (store [] [(3, 3)]) v0
            after_miss_of_B.
Proof.
  apply reachable_step; [apply after_forfeit_of_A_reachable | reflexivity].
Qed.

(** C2, as stated, fails: after A's forfeit, B's miss leaves B the active
    player, and so does the forfeit of B that follows. *)
Lemma miss_and_forfeit_can_keep_the_turn :
  reachable 10 FORFEIT pA pB newGameManager duel (store [] [(3, 3)]) v0
            after_forfeit_of_A
  /\ loop_cond after_forfeit_of_A = true
  /\ outcome FORFEIT after_forfeit_of_A = Resolved Miss
  /\ currentPlayer after_forfeit_of_A = pB
  /\ currentPlayer (loop_body FORFEIT pA pB after_forfeit_of_A) = pB
  /\ reachable 10 FORFEIT pA pB newGameManager duel (store [] [(3, 3)]) v0
               after_miss_of_B
  /\ loop_cond after_miss_of_B = true
  /\ outcome FORFEIT after_miss_of_B = Forfeited
  /\ currentPlayer after_miss_of_B = pB
  /\ currentPlayer (loop_body FORFEIT pA pB after_miss_of_B) = pB.
Proof.
  split; [exact after_forfeit_of_A_reachable|].
  repeat (split; [reflexivity|]).
  split; [exact after_miss_of_B_reachable|].
  repeat split; reflexivity.
Qed.

Lemma turn_after_outcome_witness :
  outcome FORFEIT after_forfeit_of_A = Resolved Miss
  /\ forfeited pA pB after_forfeit_of_A
               (opponent pA pB (currentPlayer after_forfeit_of_A)) = true
  /\ currentPlayer (loop_body FORFEIT pA pB after_forfeit_of_A)
     = currentPlayer after_forfeit_of_A.
Proof.
  split; [reflexivity|]. split; [reflexivity|].
  assert (C : loop_cond after_forfeit_of_A = true) by reflexivity.
  apply (proj1 (proj2 (proj2
           (turn_after_outcome 10 FORFEIT pA pB newGameManager duel
              (store [] [(3, 3)]) v0 after_forfeit_of_A players_differ
              after_forfeit_of_A_reachable C)))); reflexivity.
Defined.

Lemma attack_target_normalized_witness :
  fst (call_attack (players (start [(1, 1)] [])) pA) = (1, 1)
  /\ (1, 1) <> FORFEIT
  /\ board (loop_body FORFEIT pA pB (start [(1, 1)] [])) =
     fst (executeAttack duel (0, 0)).
Proof.
  split; [reflexivity|]. split; [discriminate|].
  assert (E : fst (call_attack (players (start [(1, 1)] []))
                              (currentPlayer (start [(1, 1)] []))) = (1, 1))
    by reflexivity.
  assert (N : (1, 1) <> FORFEIT) by discriminate.
  apply (proj1 (attack_target_normalized FORFEIT pA pB
                  (start [(1, 1)] []) (1, 1) E N)).
Defined.

Lemma attack_result_notified_witness :
  fst (call_attack (players first_shot) (currentPlayer first_shot)) = (2, 2)
  /\ exists n : Z,
      ((currentPlayer first_shot = pA /\ n = 0)
       \/ (currentPlayer first_shot = pB /\ n = 1))
      /\ trace (loop_body FORFEIT pA pB first_shot) =
         trace first_shot ++ [CallAttack pA (2, 2);
                              CallExecuteAttack (1, 1);
                              CallNotifyOnAttackResult pA n 1 1 Sink;
                              CallNotifyOnAttackResult pB n 1 1 Sink;
                              CallVisualizeAttackResults 1 1 Sink].
Proof.
  split; [reflexivity|].
  assert (E : fst (call_attack (players first_shot)
                              (currentPlayer first_shot)) = (2, 2))
    by reflexivity.
  assert (N : (2, 2) <> FORFEIT) by discriminate.
  destruct (attack_result_notified 10 FORFEIT pA pB newGameManager duel
              (store [(2, 2)] []) v0 first_shot (2, 2) players_differ
              (reachable_init 10 FORFEIT pA pB newGameManager duel
                              (store [(2, 2)] []) v0)
              E N) as (n & Hn & Htr & _).
  exists n. split; [exact Hn | exact Htr].
Defined.

Lemma forfeit_is_permanent_witness :
  In (CallAttack pA FORFEIT) (trace after_miss_of_B)
  /\ forfeited pA pB after_miss_of_B pA = true
  /\ forfeited pA pB after_miss_of_B (currentPlayer after_miss_of_B) = false.
Proof.
  pose proof (forfeit_is_permanent 10 FORFEIT pA pB newGameManager duel
                (store [] [(3, 3)]) v0 after_miss_of_B players_differ
                after_miss_of_B_reachable) as (H1 & _ & H3 & _).
  assert (I : In (CallAttack pA FORFEIT) (trace after_miss_of_B)).
  { cbn. right. right. left. reflexivity. }
  split; [exact I|]. split; [exact (H1 pA I) | apply H3; reflexivity].
Defined.

Lemma null_piece_is_miss_witness :
  In (CallVisualizeAttackResults 1 1 Hit) (trace after_hit_of_A)
  /\ fst (call_attack (players after_hit_of_A)
                      (currentPlayer after_hit_of_A)) = (2, 2)
  /\ snd (executeAttack (board after_hit_of_A) (normalize (2, 2))) = None
  /\ outcome FORFEIT after_hit_of_A = Resolved Miss.
Proof.
  assert (E : fst (call_attack (players after_hit_of_A)
                              (currentPlayer after_hit_of_A)) = (2, 2))
    by reflexivity.
  assert (N : (2, 2) <> FORFEIT) by discriminate.
  assert (P : snd (executeAttack (board after_hit_of_A)
                                 (normalize (2, 2))) = None)
    by reflexivity.
  split; [cbn; tauto|]. split; [exact E|]. split; [exact P|].
  apply (proj1 (null_piece_is_miss FORFEIT pA pB after_hit_of_A (2, 2)
                  E N P)).
Defined.

Lemma visualizeEndGame_exactly_once_witness :
  fst (startGame 10 FORFEIT pA pB 5 newGameManager duel
                 (store [(2, 2)] []) v0) = true
  /\ exists st : @GameState DemoBoard Script Counter,
      isGameOver (board st) (isPlayerAForfeit st) (isPlayerBForfeit st)
      = true
      /\ trace (snd (startGame 10 FORFEIT pA pB 5 newGameManager duel
                               (store [(2, 2)] []) v0)) =
         trace st ++ [CallVisualizeEndGame (board st) (isPlayerAForfeit st)
                                           (isPlayerBForfeit st)].
Proof.
  split; [reflexivity|].
  assert (F : fst (startGame 10 FORFEIT pA pB 5 newGameManager duel
                             (store [(2, 2)] []) v0) = true)
    by reflexivity.
  destruct (proj1 (visualizeEndGame_exactly_once 10 FORFEIT pA pB 5
                     newGameManager duel (store [(2, 2)] []) v0) F)
    as (st & _ & Hover & _ & Htr & _).
  exists st. split; [exact Hover | exact Htr].
Defined.

End SmallBoard.

(** ** More on the loop of [startGame] *)

Section MatchTrace.

Context {Board Matrix Algo Visual : Type}.
Context `{BB : BattleBoard Board Matrix}.
Context `{PL : IBattleshipGameAlgo Algo Matrix}.
Context `{GV : IGameVisual Visual Board}.

Variable BOARD_SIZE : Z.
Variable FORFEIT : Z * Z.
Variables playerA playerB : addr.

Local Abbreviation State := (@GameState Board Algo Visual).
Local Abbreviation body := (loop_body FORFEIT playerA playerB).
Local Abbreviation asked st :=
  (fst (call_attack (players st) (currentPlayer st))).
Local Abbreviation reach := (reachable BOARD_SIZE FORFEIT playerA playerB).
Local Abbreviation init := (initial_state BOARD_SIZE playerA playerB).

Lemma count_app (f : Event Board -> bool) (l1 l2 : list (Event Board)) :
  count f (l1 ++ l2) = (count f l1 + count f l2)%nat.
Proof. unfold count. rewrite filter_app, length_app. reflexivity. Qed.

Lemma executed_targets_app (l1 l2 : list (Event Board)) :
  executed_targets (l1 ++ l2) = executed_targets l1 ++ executed_targets l2.
Proof. unfold executed_targets. apply flat_map_app. Qed.

Lemma replay_snoc (b : Board) (ts : list (Z * Z)) (t : Z * Z) :
  replay b (ts ++ [t]) = fst (executeAttack (replay b ts) t).
Proof. unfold replay. rewrite fold_left_app. reflexivity. Qed.

Lemma body_forfeit_trace (st : State) :
  asked st = FORFEIT ->
  trace (body st) = trace st ++ [CallAttack (currentPlayer st) FORFEIT].
Proof. intros E. rewrite (body_forfeit FORFEIT _ _ st E). reflexivity. Qed.

Lemma body_forfeit_board (st : State) :
  asked st = FORFEIT -> board (body st) = board st.
Proof. intros E. rewrite (body_forfeit FORFEIT _ _ st E). reflexivity. Qed.

(** X1. With two distinct strategy objects, [setBoard] is called on the
    object of player A and then on the object of player B, with the matrix
    of the board and [BOARD_SIZE] rows and columns, before anything else is
    called; the first strategy that is asked to attack is player A, as
    [setBoard] left it. *)
Theorem startGame_opening (mgr : GameManager) (b : Board) (h : Store)
        (v : Visual) (st : GameState) :
  playerA <> playerB ->
  reachable BOARD_SIZE FORFEIT playerA playerB mgr b h v st ->
  (trace st = [CallSetBoard playerA BOARD_SIZE BOARD_SIZE;
               CallSetBoard playerB BOARD_SIZE BOARD_SIZE]
   /\ currentPlayer st = playerA
   /\ players st playerA
      = setBoard (getBoardMatrix b) BOARD_SIZE BOARD_SIZE (h playerA)
   /\ players st playerB
      = setBoard (getBoardMatrix b) BOARD_SIZE BOARD_SIZE (h playerB))
  \/ exists rest : list (Event Board),
      trace st = CallSetBoard playerA BOARD_SIZE BOARD_SIZE
                 :: CallSetBoard playerB BOARD_SIZE BOARD_SIZE
                 :: CallAttack playerA
                      (fst (attack (setBoard (getBoardMatrix b) BOARD_SIZE
                                             BOARD_SIZE (h playerA))))
                 :: rest.
Proof.
  intros D R. induction R as [|st R IH C].
  - left. split; [reflexivity|]. split; [reflexivity|].
    cbn [initial_state players]. unfold call_setBoard. split.
    + rewrite store_get_set_other by assumption. apply store_get_set.
    + rewrite store_get_set.
      rewrite store_get_set_other by congruence. reflexivity.
  - right. destruct (body_trace FORFEIT playerA playerB st)
      as (rest & Etr & _).
    destruct IH as [(E & Hc & HA & _)|(rest' & E)].
    + exists rest. rewrite Etr, E, Hc. unfold call_attack. cbn [fst].
      rewrite HA. reflexivity.
    + exists (rest' ++ CallAttack (currentPlayer st) (asked st) :: rest).
      rewrite Etr, E. reflexivity.
Qed.

Ltac by_address :=
  repeat match goal with
         | |- context [Nat.eqb ?a ?b] => destruct (Nat.eqb_spec a b); subst
         end;
  try congruence; try reflexivity.

Lemma replay_player_app (m : Matrix) (p : addr) (l1 l2 : list (Event Board))
      (s : Algo) :
  replay_player m p (l1 ++ l2) s
  = replay_player m p l2 (replay_player m p l1 s).
Proof. unfold replay_player. apply fold_left_app. Qed.

Lemma replay_visualizer_app (l1 l2 : list (Event Board)) (v : Visual) :
  replay_visualizer (l1 ++ l2) v
  = replay_visualizer l2 (replay_visualizer l1 v).
Proof. unfold replay_visualizer. apply fold_left_app. Qed.

(** The objects are what the recorded calls made of them. *)
Lemma reachable_replay (mgr : GameManager) (b : Board) (h : Store)
      (v : Visual) (st : State) :
  reach mgr b h v st ->
  (forall p, players st p
             = replay_player (getBoardMatrix b) p (trace st) (h p))
  /\ visualizer st = replay_visualizer (trace st) v.
Proof.
  intros R. induction R as [|st R [IHp IHv] C].
  - split; [|reflexivity]. intros p.
    cbn [initial_state players trace]. unfold call_setBoard, store_set.
    cbn. by_address.
  - destruct (target_eqb (asked st) FORFEIT) eqn:E.
    + apply target_eqb_eq in E. rewrite (body_forfeit FORFEIT _ _ st E).
      cbn [players visualizer trace]. split.
      * intros p. rewrite replay_player_app, <- IHp.
        unfold call_attack, store_set. cbn. by_address.
      * rewrite replay_visualizer_app, <- IHv. reflexivity.
    + apply target_eqb_neq in E.
      rewrite (body_attack_trace FORFEIT playerA playerB st E).
      rewrite (body_attack_players FORFEIT playerA playerB st E).
      rewrite (body_attack_visualizer FORFEIT playerA playerB st E).
      split.
      * intros p. rewrite replay_player_app, <- IHp.
        unfold call_notifyOnAttackResult, call_attack, store_set. cbn.
        by_address.
      * rewrite replay_visualizer_app, <- IHv. reflexivity.
Qed.

(** X2. In every state of a match between two distinct strategy objects,
    each strategy object and the visualizer are what the calls recorded for
    them in the trace, in their order, have made of them, and these calls
    are balanced: the calls of [executeAttack] are as many as the calls of
    [attack] that returned a target, and each strategy was notified, and the
    visualizer shown a result, exactly once for each of them: a forfeit is
    reported to nobody. *)
Theorem calls_are_balanced (mgr : GameManager) (b : Board) (h : Store)
        (v : Visual) (st : GameState) :
  playerA <> playerB ->
  reachable BOARD_SIZE FORFEIT playerA playerB mgr b h v st ->
  count is_execute_call (trace st) = count (is_target_call FORFEIT) (trace st)
  /\ count (is_notify_call_on playerA) (trace st)
     = count is_execute_call (trace st)
  /\ count (is_notify_call_on playerB) (trace st)
     = count is_execute_call (trace st)
  /\ count is_visualize_attack_call (trace st)
     = count is_execute_call (trace st)
  /\ (forall p : addr,
         players st p
         = replay_player (getBoardMatrix b) p (trace st) (h p))
  /\ visualizer st = replay_visualizer (trace st) v.
Proof.
  intros D R.
  enough (G : count is_execute_call (trace st)
              = count (is_target_call FORFEIT) (trace st)
              /\ count (is_notify_call_on playerA) (trace st)
                 = count is_execute_call (trace st)
              /\ count (is_notify_call_on playerB) (trace st)
                 = count is_execute_call (trace st)
              /\ count is_visualize_attack_call (trace st)
                 = count is_execute_call (trace st)).
  { destruct G as (G1 & G2 & G3 & G4).
    destruct (reachable_replay mgr b h v st R) as [Hp Hv].
    repeat (split; [assumption|]). exact Hv. }
  induction R as [|st R (I1 & I2 & I3 & I4) C].
  - unfold count. cbn. repeat split; reflexivity.
  - assert (NA : (playerB =? playerA)%nat = false)
      by (apply Nat.eqb_neq; congruence).
    assert (NB : (playerA =? playerB)%nat = false)
      by (apply Nat.eqb_neq; congruence).
    destruct (target_eqb (asked st) FORFEIT) eqn:E.
    + apply target_eqb_eq in E. rewrite (body_forfeit_trace st E).
      rewrite !count_app, I1, I2, I3, I4. unfold count at 2 4 6 8 10 12.
      cbn. rewrite (proj2 (target_eqb_eq FORFEIT FORFEIT) eq_refl). cbn.
      repeat split; lia.
    + pose proof E as E'. apply target_eqb_neq in E.
      rewrite (body_attack_trace FORFEIT playerA playerB st E).
      rewrite !count_app, I1, I2, I3, I4. unfold count at 2 4 6 8 10 12.
      cbn -[target_eqb Nat.eqb]. cbn -[target_eqb] in E'.
      rewrite E', NA, NB, !Nat.eqb_refl. cbn.
      repeat split; lia.
Qed.

(** X3. In every state of a match between two distinct strategy objects,
    a forfeit flag is set exactly when its player has returned the forfeit
    pair, and no player returns it twice: the number of forfeits of a player
    in the trace is 1 when the flag is set and 0 when it is not. *)
Theorem forfeits_counted_by_flags (mgr : GameManager) (b : Board)
        (h : Store) (v : Visual) (st : GameState) :
  playerA <> playerB ->
  reachable BOARD_SIZE FORFEIT playerA playerB mgr b h v st ->
  count (is_forfeit_of FORFEIT playerA) (trace st)
  = (if isPlayerAForfeit st then 1 else 0)%nat
  /\ count (is_forfeit_of FORFEIT playerB) (trace st)
     = (if isPlayerBForfeit st then 1 else 0)%nat.
Proof.
  intros D R. induction R as [|st R [IA IB] C].
  - unfold count. cbn. split; reflexivity.
  - pose proof (reachable_current_plays BOARD_SIZE FORFEIT playerA playerB
                  mgr b h v st D R C) as Hcur.
    destruct (reachable_current BOARD_SIZE FORFEIT playerA playerB
                mgr b h v st D R) as [Hc _].
    assert (NA : (playerB =? playerA)%nat = false)
      by (apply Nat.eqb_neq; congruence).
    assert (NB : (playerA =? playerB)%nat = false)
      by (apply Nat.eqb_neq; congruence).
    destruct (target_eqb (asked st) FORFEIT) eqn:E.
    + apply target_eqb_eq in E. rewrite (body_forfeit FORFEIT _ _ st E).
      cbn [trace isPlayerAForfeit isPlayerBForfeit].
      rewrite !count_app, IA, IB. unfold count at 1 2.
      cbn -[target_eqb Nat.eqb].
      rewrite (proj2 (target_eqb_eq FORFEIT FORFEIT) eq_refl).
      destruct Hc as [Hc|Hc]; rewrite Hc in *.
      * rewrite flag_A in Hcur by assumption.
        rewrite Hcur, NB, !Nat.eqb_refl. cbn.
        split; [reflexivity | lia].
      * rewrite flag_B in Hcur by assumption.
        rewrite Hcur, NA, !Nat.eqb_refl. cbn.
        split; [lia | reflexivity].
    + pose proof E as E'. apply target_eqb_neq in E.
      rewrite (body_attack_trace FORFEIT playerA playerB st E).
      destruct (body_attack_flags FORFEIT playerA playerB st E) as [-> ->].
      rewrite !count_app, IA, IB. unfold count at 1 2.
      cbn -[target_eqb Nat.eqb]. cbn -[target_eqb] in E'.
      rewrite E', !andb_false_r. cbn. split; lia.
Qed.

(** X4. The board changes through [executeAttack] only: in every run of
    [startGame], finished or not, the board is the one obtained from the
    initial board by the attacks on the targets that the trace records, in
    their order. *)
Theorem board_is_replay_of_trace (fuel : nat) (mgr : GameManager)
        (b : Board) (h : Store) (v : Visual) :
  board (snd (startGame BOARD_SIZE FORFEIT playerA playerB fuel mgr b h v))
  = replay b
      (executed_targets
         (trace (snd (startGame BOARD_SIZE FORFEIT playerA playerB
                                fuel mgr b h v)))).
Proof.
  assert (G : forall st : State,
             reach mgr b h v st ->
             board st = replay b (executed_targets (trace st))).
  { intros st R. induction R as [|st R IH C]; [reflexivity|].
    destruct (target_eqb (asked st) FORFEIT) eqn:E.
    - apply target_eqb_eq in E.
      rewrite (body_forfeit_trace st E), (body_forfeit_board st E).
      rewrite executed_targets_app. cbn. rewrite app_nil_r. exact IH.
    - apply target_eqb_neq in E.
      rewrite (body_attack_trace FORFEIT playerA playerB st E).
      rewrite (body_attack_board FORFEIT playerA playerB st E).
      rewrite executed_targets_app. cbn [executed_targets flat_map app].
      rewrite replay_snoc, <- IH. reflexivity. }
  pose proof (G _ (game_loop_reachable BOARD_SIZE FORFEIT playerA playerB
                     mgr b h v fuel _
                     (reachable_init BOARD_SIZE FORFEIT playerA playerB
                                     mgr b h v))) as H.
  unfold startGame.
  destruct (fst (game_loop FORFEIT playerA playerB fuel (init mgr b h v)));
    cbn [snd end_game board trace].
  - rewrite executed_targets_app. cbn. rewrite app_nil_r. exact H.
  - exact H.
Qed.

(** X5. On a board on which a player has no ship, nobody is asked to
    attack: [startGame] gives the board to both strategies, calls
    [visualizeEndGame] with both flags unset, and returns, without any fuel. *)
Theorem no_ship_no_attack (fuel : nat) (mgr : GameManager) (b : Board)
        (h : Store) (v : Visual) :
  getPlayerAShipCount b <= 0 \/ getPlayerBShipCount b <= 0 ->
  fst (startGame BOARD_SIZE FORFEIT playerA playerB fuel mgr b h v) = true
  /\ trace (snd (startGame BOARD_SIZE FORFEIT playerA playerB
                           fuel mgr b h v))
     = [CallSetBoard playerA BOARD_SIZE BOARD_SIZE;
        CallSetBoard playerB BOARD_SIZE BOARD_SIZE;
        CallVisualizeEndGame b false false]
  /\ board (snd (startGame BOARD_SIZE FORFEIT playerA playerB
                           fuel mgr b h v)) = b
  /\ visualizer (snd (startGame BOARD_SIZE FORFEIT playerA playerB
                                fuel mgr b h v))
     = visualizeEndGame b false false v.
Proof.
  intros H.
  assert (C : loop_cond (init mgr b h v) = false).
  { unfold loop_cond. apply negb_false_iff. apply isGameOver_spec.
    cbn. tauto. }
  assert (L : game_loop FORFEIT playerA playerB fuel (init mgr b h v)
              = (true, init mgr b h v)).
  { destruct fuel; cbn [game_loop]; rewrite C; reflexivity. }
  unfold startGame. rewrite L. cbn. repeat split; reflexivity.
Qed.

(** X7. [switchPlayerTurns] never chooses a player who has forfeited,
    unless both have: it returns player A only when A's flag is unset, and
    player B only when B's flag is unset. *)
Theorem switchPlayerTurns_skips_forfeited (currPlayer : addr)
        (fA fB : bool) :
  fA && fB = false ->
  (switchPlayerTurns playerA playerB currPlayer fA fB = playerA
   /\ fA = false)
  \/ (switchPlayerTurns playerA playerB currPlayer fA fB = playerB
      /\ fB = false).
Proof.
  intros N. unfold switchPlayerTurns.
  destruct (currPlayer =? playerA)%nat, fA, fB; cbn in *;
    try discriminate; auto.
Qed.

(** X9. When [executeAttack] returns a piece, the attack is a sink if the
    [_lifeLeft] of the piece is [0] and a hit otherwise (also for a negative
    [_lifeLeft]): [notifyOnAttackResult] is called with this result on both
    strategy objects and [visualizeAttackResults] on the visualizer, and the
    attacker stays the active player. *)
Theorem piece_is_hit_or_sink (st : GameState) (t : Z * Z)
        (piece : GamePiece) :
  fst (call_attack (players st) (currentPlayer st)) = t ->
  t <> FORFEIT ->
  snd (executeAttack (board st) (normalize t)) = Some piece ->
  let result := if _lifeLeft piece =? 0 then Sink else Hit in
  outcome FORFEIT st = Resolved result
  /\ trace (loop_body FORFEIT playerA playerB st) =
     trace st ++ [CallAttack (currentPlayer st) t;
                  CallExecuteAttack (normalize t);
                  CallNotifyOnAttackResult playerA
                    (attackingPlayerNumberOf playerB (currentPlayer st))
                    (fst (normalize t)) (snd (normalize t)) result;
                  CallNotifyOnAttackResult playerB
                    (attackingPlayerNumberOf playerB (currentPlayer st))
                    (fst (normalize t)) (snd (normalize t)) result;
                  CallVisualizeAttackResults
                    (fst (normalize t)) (snd (normalize t)) result]
  /\ currentPlayer (loop_body FORFEIT playerA playerB st) = currentPlayer st
  /\ visualizer (loop_body FORFEIT playerA playerB st) =
     visualizeAttackResults (fst (normalize t)) (snd (normalize t)) result
                            (visualizer st)
  /\ (playerA <> playerB ->
      players (loop_body FORFEIT playerA playerB st) playerA =
      notifyOnAttackResult
        (attackingPlayerNumberOf playerB (currentPlayer st))
        (fst (normalize t)) (snd (normalize t)) result
        (snd (call_attack (players st) (currentPlayer st)) playerA)
      /\ players (loop_body FORFEIT playerA playerB st) playerB =
         notifyOnAttackResult
           (attackingPlayerNumberOf playerB (currentPlayer st))
           (fst (normalize t)) (snd (normalize t)) result
           (snd (call_attack (players st) (currentPlayer st)) playerB)).
Proof.
  intros Et E P. subst t. cbn zeta.
  split; [|split; [|split; [|split]]].
  - apply outcome_resolved. split; [assumption|]. rewrite P. reflexivity.
  - rewrite (body_attack_trace FORFEIT playerA playerB st E), P.
    reflexivity.
  - rewrite (body_attack_current FORFEIT playerA playerB st E), P.
    reflexivity.
  - rewrite (body_attack_visualizer FORFEIT playerA playerB st E), P.
    reflexivity.
  - intros D. rewrite (body_attack_players FORFEIT playerA playerB st E), P.
    unfold call_notifyOnAttackResult. cbn [attackResultOf]. split.
    + rewrite store_get_set_other by assumption.
      rewrite store_get_set. reflexivity.
    + rewrite store_get_set.
      rewrite store_get_set_other by congruence. reflexivity.
Qed.

Lemma isGameOver_false (b : Board) (fA fB : bool) :
  0 < getPlayerAShipCount b ->
  0 < getPlayerBShipCount b ->
  fA && fB = false ->
  isGameOver b fA fB = false.
Proof.
  intros HA HB N. destruct (isGameOver b fA fB) eqn:E; [|reflexivity].
  apply isGameOver_spec in E. destruct E as [[-> ->]|[E|E]];
    [discriminate | lia | lia].
Qed.

(** X6. When both players have a ship and each of two distinct strategies
    answers its first call of [attack] with the forfeit pair, the match is
    over after these two calls: the board is untouched, nobody is notified,
    and [visualizeEndGame] is called with both flags set. *)
Theorem both_forfeit_at_once (fuel : nat) (mgr : GameManager) (b : Board)
        (h : Store) (v : Visual) :
  playerA <> playerB ->
  0 < getPlayerAShipCount b ->
  0 < getPlayerBShipCount b ->
  fst (attack (setBoard (getBoardMatrix b) BOARD_SIZE BOARD_SIZE
                        (h playerA))) = FORFEIT ->
  fst (attack (setBoard (getBoardMatrix b) BOARD_SIZE BOARD_SIZE
                        (h playerB))) = FORFEIT ->
  (2 <= fuel)%nat ->
  fst (startGame BOARD_SIZE FORFEIT playerA playerB fuel mgr b h v) = true
  /\ trace (snd (startGame BOARD_SIZE FORFEIT playerA playerB
                           fuel mgr b h v))
     = [CallSetBoard playerA BOARD_SIZE BOARD_SIZE;
        CallSetBoard playerB BOARD_SIZE BOARD_SIZE;
        CallAttack playerA FORFEIT;
        CallAttack playerB FORFEIT;
        CallVisualizeEndGame b true true]
  /\ board (snd (startGame BOARD_SIZE FORFEIT playerA playerB
                           fuel mgr b h v)) = b.
Proof.
  intros D HA HB FA FB Hfuel.
  destruct fuel as [|[|fuel]]; [lia | lia | clear Hfuel].
  assert (NA : (playerB =? playerA)%nat = false)
    by (apply Nat.eqb_neq; congruence).
  assert (NB : (playerA =? playerB)%nat = false)
    by (apply Nat.eqb_neq; congruence).
  set (s0 := init mgr b h v).
  assert (C0 : loop_cond s0 = true).
  { unfold loop_cond. cbn. rewrite isGameOver_false by auto. reflexivity. }
  assert (E0 : asked s0 = FORFEIT).
  { cbn. unfold call_setBoard, store_set.
    rewrite NB, Nat.eqb_refl. exact FA. }
  set (s1 := body s0).
  assert (T1 : trace s1 = trace s0 ++ [CallAttack playerA FORFEIT])
    by apply (body_forfeit_trace s0 E0).
  assert (B1 : board s1 = b) by apply (body_forfeit_board s0 E0).
  assert (F1 : isPlayerAForfeit s1 = true /\ isPlayerBForfeit s1 = false
               /\ currentPlayer s1 = playerB).
  { unfold s1. rewrite (body_forfeit FORFEIT _ _ s0 E0). cbn.
    rewrite Nat.eqb_refl. cbn. rewrite switch_from_A. auto. }
  destruct F1 as (FA1 & FB1 & Cur1).
  assert (C1 : loop_cond s1 = true).
  { unfold loop_cond. rewrite B1, FA1, FB1.
    rewrite isGameOver_false by auto. reflexivity. }
  assert (E1 : asked s1 = FORFEIT).
  { rewrite Cur1. unfold s1. rewrite (body_forfeit FORFEIT _ _ s0 E0).
    cbn. unfold call_setBoard, store_set.
    rewrite NA, !Nat.eqb_refl. exact FB. }
  set (s2 := body s1).
  assert (T2 : trace s2 = trace s1 ++ [CallAttack playerB FORFEIT]).
  { unfold s2. rewrite (body_forfeit_trace s1 E1), Cur1. reflexivity. }
  assert (B2 : board s2 = b).
  { unfold s2. rewrite (body_forfeit_board s1 E1). exact B1. }
  assert (F2 : isPlayerAForfeit s2 = true /\ isPlayerBForfeit s2 = true).
  { unfold s2. rewrite (body_forfeit FORFEIT _ _ s1 E1). cbn.
    rewrite Cur1, NA, FA1. auto. }
  destruct F2 as (FA2 & FB2).
  assert (C2 : loop_cond s2 = false).
  { unfold loop_cond, isGameOver. rewrite FA2, FB2. reflexivity. }
  assert (L : game_loop FORFEIT playerA playerB (S (S fuel)) s0
              = (true, s2)).
  { cbn [game_loop]. rewrite C0. fold s1. rewrite C1. fold s2.
    destruct fuel; cbn [game_loop]; rewrite C2; reflexivity. }
  unfold startGame. fold s0. rewrite L. cbn [fst snd end_game trace board].
  rewrite T2, T1, B2, FA2, FB2. repeat split; reflexivity.
Qed.

End MatchTrace.

(** ** The same object as both players *)

Section SameObject.

Context {Board Matrix Algo Visual : Type}.
Context `{BB : BattleBoard Board Matrix}.
Context `{PL : IBattleshipGameAlgo Algo Matrix}.
Context `{GV : IGameVisual Visual Board}.

Variable BOARD_SIZE : Z.
Variable FORFEIT : Z * Z.
Variable player : addr.

(** X8. When one strategy object is passed as both players, it is the
    current player throughout, its forfeits set the flag of player A only,
    and it is announced as attacker [1]: the flag of player B is never set,
    so that the match cannot end by forfeit, but only when a ship count
    is [0] or less. *)
Theorem same_object_never_ends_by_forfeit (mgr : GameManager) (b : Board)
        (h : Store) (v : Visual) (st : GameState) :
  reachable BOARD_SIZE FORFEIT player player mgr b h v st ->
  currentPlayer st = player
  /\ isPlayerBForfeit st = false
  /\ attackingPlayerNumberOf player (currentPlayer st) = 1
  /\ (loop_cond st = false ->
      getPlayerAShipCount (board st) <= 0
      \/ getPlayerBShipCount (board st) <= 0).
Proof.
  intros R.
  assert (G : currentPlayer st = player /\ isPlayerBForfeit st = false).
  { induction R as [|st R [IHc IHf] C]; [split; reflexivity|].
    destruct (target_eqb (fst (call_attack (players st) (currentPlayer st)))
                         FORFEIT) eqn:E.
    - apply target_eqb_eq in E. rewrite (body_forfeit FORFEIT _ _ st E).
      cbn [currentPlayer isPlayerBForfeit].
      rewrite IHc, Nat.eqb_refl, IHf, switch_from_A. split; reflexivity.
    - apply target_eqb_neq in E.
      rewrite (body_attack_current FORFEIT player player st E).
      destruct (body_attack_flags FORFEIT player player st E) as [_ ->].
      split; [|assumption].
      destruct (snd (executeAttack _ _)); [assumption|].
      rewrite IHc, IHf, switch_from_A. reflexivity. }
  destruct G as [Hc Hf]. split; [exact Hc|]. split; [exact Hf|]. split.
  - unfold attackingPlayerNumberOf. rewrite Hc, Nat.eqb_refl. reflexivity.
  - unfold loop_cond. intros N. apply negb_false_iff in N.
    apply isGameOver_spec in N. rewrite Hf in N.
    destruct N as [[_ N]|N]; [discriminate | exact N].
Qed.

End SameObject.

(** ** More on the set of a round *)

Section RoundSet.

Import Scoreboard.

Local Abbreviation insert := (set_insert PlayerStatisticsRatingSort).
Local Abbreviation stats n xs := (playerStatistics (roundResultsOf n xs)).

Lemma rating_equivalent_refl (x : PlayerStatistics) :
  rating_equivalent x x = true.
Proof.
  unfold rating_equivalent, PlayerStatisticsRatingSort.
  rewrite SFltb_irrefl. reflexivity.
Qed.

Lemma rating_equivalent_same_rating (x y : PlayerStatistics) :
  rating x = rating y -> rating_equivalent x y = true.
Proof.
  intros E. unfold rating_equivalent, PlayerStatisticsRatingSort.
  rewrite E, SFltb_irrefl. reflexivity.
Qed.

Lemma set_insert_keeps (x y : PlayerStatistics) (s : list PlayerStatistics) :
  In y s -> In y (insert x s).
Proof.
  induction s as [|z s IH]; cbn; [tauto|].
  destruct (PlayerStatisticsRatingSort x z);
    [|destruct (PlayerStatisticsRatingSort z x)]; cbn; tauto.
Qed.

Lemma set_insert_represents (x : PlayerStatistics)
      (s : list PlayerStatistics) :
  exists y, In y (insert x s) /\ rating_equivalent x y = true.
Proof.
  induction s as [|z s (y & Hy & Ey)]; cbn.
  - exists x. split; [left; reflexivity | apply rating_equivalent_refl].
  - destruct (PlayerStatisticsRatingSort x z) eqn:Exz;
      [|destruct (PlayerStatisticsRatingSort z x) eqn:Ezx].
    + exists x. split; [left; reflexivity | apply rating_equivalent_refl].
    + exists y. split; [right; assumption | assumption].
    + exists z. split; [left; reflexivity|].
      unfold rating_equivalent. rewrite Exz, Ezx. reflexivity.
Qed.

Lemma set_insert_length (x : PlayerStatistics) (s : list PlayerStatistics) :
  (List.length (insert x s) <= S (List.length s))%nat.
Proof.
  induction s as [|z s IH]; cbn; [lia|].
  destruct (PlayerStatisticsRatingSort x z);
    [|destruct (PlayerStatisticsRatingSort z x)]; cbn; lia.
Qed.

Lemma set_of_snoc (xs : list PlayerStatistics) (x : PlayerStatistics) :
  set_of PlayerStatisticsRatingSort (xs ++ [x])
  = insert x (set_of PlayerStatisticsRatingSort xs).
Proof. unfold set_of. rewrite fold_left_app. reflexivity. Qed.

(** An entry that the set cannot tell from one of its elements is not
    inserted. *)
Lemma set_insert_equivalent (x y : PlayerStatistics)
      (s : list PlayerStatistics) :
  StronglySorted rating_before s ->
  In y s ->
  rating_equivalent x y = true ->
  insert x s = s.
Proof.
  intros S I E. unfold rating_equivalent in E.
  apply andb_true_iff in E. destruct E as [Exy Eyx].
  apply negb_true_iff in Exy, Eyx.
  induction S as [|z s S IH F]; [destruct I|]. cbn.
  rewrite Forall_forall in F.
  destruct (PlayerStatisticsRatingSort x z) eqn:Exz.
  - exfalso. destruct I as [->|I]; [congruence|].
    pose proof (SFltb_trans _ _ _ Exz (F y I)) as T.
    unfold PlayerStatisticsRatingSort in Exy. congruence.
  - destruct (PlayerStatisticsRatingSort z x) eqn:Ezx; [|reflexivity].
    destruct I as [->|I]; [congruence|]. rewrite (IH I). reflexivity.
Qed.

(** X10. The statistics of a round are strictly increasing in rating: of
    two entries the earlier one has the smaller rating, so that no two
    entries of a round have the same rating. *)
Theorem round_statistics_strictly_increasing
        (aRoundNum : Z) (xs : list PlayerStatistics)
        (i j : nat) (a b : PlayerStatistics) :
  (i < j)%nat ->
  nth_error (playerStatistics (roundResultsOf aRoundNum xs)) i = Some a ->
  nth_error (playerStatistics (roundResultsOf aRoundNum xs)) j = Some b ->
  PlayerStatisticsRatingSort a b = true /\ rating a <> rating b.
Proof.
  intros L Ha Hb.
  pose proof (StronglySorted_nth rating_before _ (set_of_sorted xs)
                i j a b L Ha Hb) as H.
  split; [exact H|]. intros E. unfold rating_before in H.
  unfold PlayerStatisticsRatingSort in H.
  rewrite E, SFltb_irrefl in H. discriminate.
Qed.

Lemma set_of_represents (xs : list PlayerStatistics) (x : PlayerStatistics) :
  In x xs ->
  exists y, In y (set_of PlayerStatisticsRatingSort xs)
            /\ rating_equivalent x y = true.
Proof.
  induction xs as [|z xs IH] using rev_ind; [intros []|].
  rewrite set_of_snoc. intros Hx. apply in_app_or in Hx.
  destruct Hx as [Hx|[<-|[]]].
  - destruct (IH Hx) as (y & Hy & Ey).
    exists y. split; [apply set_insert_keeps; assumption | assumption].
  - apply set_insert_represents.
Qed.

Lemma set_of_app_keeps (l1 l2 : list PlayerStatistics)
      (y : PlayerStatistics) :
  In y (set_of PlayerStatisticsRatingSort l1) ->
  In y (set_of PlayerStatisticsRatingSort (l1 ++ l2)).
Proof.
  induction l2 as [|z l2 IH] using rev_ind.
  - rewrite app_nil_r. tauto.
  - intros I. rewrite app_assoc, set_of_snoc.
    apply set_insert_keeps, IH, I.
Qed.

Lemma set_of_subset (xs : list PlayerStatistics) (y : PlayerStatistics) :
  In y (set_of PlayerStatisticsRatingSort xs) -> In y xs.
Proof.
  induction xs as [|x xs IH] using rev_ind; [cbn; tauto|].
  rewrite set_of_snoc. intros Hy. apply in_or_app.
  destruct (set_insert_In _ _ _ _ Hy) as [->|Hy'];
    [right; left; reflexivity | left; auto].
Qed.

(** X11. The entries of a round are entries that were inserted, at most
    as many as were inserted, and every entry that was inserted is
    represented: the round holds an entry that the order does not tell from
    it, and that is the entry itself or one inserted before it. *)
Theorem round_statistics_represent_insertions
        (aRoundNum : Z) (xs : list PlayerStatistics) :
  (forall y, In y (playerStatistics (roundResultsOf aRoundNum xs)) ->
             In y xs)
  /\ (List.length (playerStatistics (roundResultsOf aRoundNum xs))
      <= List.length xs)%nat
  /\ (forall (earlier later : list PlayerStatistics) (x : PlayerStatistics),
        xs = earlier ++ x :: later ->
        exists y, In y (playerStatistics (roundResultsOf aRoundNum xs))
                  /\ (y = x \/ In y earlier)
                  /\ rating_equivalent x y = true).
Proof.
  cbn [playerStatistics roundResultsOf].
  split; [exact (set_of_subset xs)|split].
  - induction xs as [|x xs IH] using rev_ind; [cbn; lia|].
    rewrite set_of_snoc, length_app. cbn [List.length].
    pose proof (set_insert_length x
                  (set_of PlayerStatisticsRatingSort xs)). lia.
  - intros earlier later x ->.
    destruct (set_insert_represents x
                (set_of PlayerStatisticsRatingSort earlier))
      as (y & Hy & Ey).
    exists y. split; [|split; [|exact Ey]].
    + change (earlier ++ x :: later) with (earlier ++ [x] ++ later).
      rewrite app_assoc. apply set_of_app_keeps.
      rewrite set_of_snoc. exact Hy.
    + destruct (set_insert_In _ _ _ _ Hy) as [->|Hy'];
        [left; reflexivity | right; apply set_of_subset; exact Hy'].
Qed.

(** X12. An entry whose rating is the rating of an entry that was inserted
    before is not added to the round: the statistics stay as they were. *)
Theorem round_statistics_drop_equal_rating
        (aRoundNum : Z) (xs : list PlayerStatistics)
        (x y : PlayerStatistics) :
  In y xs ->
  rating x = rating y ->
  playerStatistics (roundResultsOf aRoundNum (xs ++ [x]))
  = playerStatistics (roundResultsOf aRoundNum xs).
Proof.
  intros I E. cbn [playerStatistics roundResultsOf]. rewrite set_of_snoc.
  destruct (set_of_represents xs y I) as (y' & Hy' & Ey').
  apply (set_insert_equivalent x y'); [apply set_of_sorted | exact Hy' |].
  unfold rating_equivalent, PlayerStatisticsRatingSort in *.
  rewrite E. exact Ey'.
Qed.

End RoundSet.

(** ** More matches and rounds on small inputs *)

Section SmallInputs.

Import Demo Demo2 Scoreboard.

Lemma after_hit_of_A_reachable :
  reachable 10 FORFEIT pA pB newGameManager frigate
            (store [(2, 2); (2, 2)] []) v0 after_hit_of_A.
Proof. apply reachable_step; [apply reachable_init | reflexivity]. Qed.

Lemma startGame_opening_witness :
  (trace after_forfeit_of_A = [CallSetBoard pA 10 10; CallSetBoard pB 10 10]
   /\ currentPlayer after_forfeit_of_A = pA
   /\ players after_forfeit_of_A pA
      = setBoard (getBoardMatrix duel) 10 10 (store [] [(3, 3)] pA)
   /\ players after_forfeit_of_A pB
      = setBoard (getBoardMatrix duel) 10 10 (store [] [(3, 3)] pB))
  \/ exists rest : list (Event DemoBoard),
      trace after_forfeit_of_A
      = CallSetBoard pA 10 10 :: CallSetBoard pB 10 10
        :: CallAttack pA
             (fst (attack (setBoard (getBoardMatrix duel) 10 10
                                    (store [] [(3, 3)] pA))))
        :: rest.
Proof.
  apply (startGame_opening 10 FORFEIT pA pB newGameManager duel
           (store [] [(3, 3)]) v0 after_forfeit_of_A players_differ
           after_forfeit_of_A_reachable).
Defined.

Lemma calls_are_balanced_witness :
  count (is_target_call FORFEIT) (trace after_hit_of_A) = 1%nat
  /\ count is_execute_call (trace after_hit_of_A)
     = count (is_target_call FORFEIT) (trace after_hit_of_A)
  /\ count (is_notify_call_on pA) (trace after_hit_of_A)
     = count is_execute_call (trace after_hit_of_A)
  /\ count (is_notify_call_on pB) (trace after_hit_of_A)
     = count is_execute_call (trace after_hit_of_A)
  /\ count is_visualize_attack_call (trace after_hit_of_A)
     = count is_execute_call (trace after_hit_of_A)
  /\ (forall p : addr,
         players after_hit_of_A p
         = replay_player (getBoardMatrix frigate) p (trace after_hit_of_A)
                         (store [(2, 2); (2, 2)] [] p))
  /\ visualizer after_hit_of_A
     = replay_visualizer (trace after_hit_of_A) v0.
Proof.
  split; [reflexivity|].
  apply (calls_are_balanced 10 FORFEIT pA pB newGameManager frigate
           (store [(2, 2); (2, 2)] []) v0 after_hit_of_A players_differ
           after_hit_of_A_reachable).
Defined.

Lemma forfeits_counted_by_flags_witness :
  isPlayerAForfeit after_miss_of_B = true
  /\ isPlayerBForfeit after_miss_of_B = false
  /\ count (is_forfeit_of FORFEIT pA) (trace after_miss_of_B)
     = (if isPlayerAForfeit after_miss_of_B then 1 else 0)%nat
  /\ count (is_forfeit_of FORFEIT pB) (trace after_miss_of_B)
     = (if isPlayerBForfeit after_miss_of_B then 1 else 0)%nat.
Proof.
  split; [reflexivity|]. split; [reflexivity|].
  apply (forfeits_counted_by_flags 10 FORFEIT pA pB newGameManager duel
           (store [] [(3, 3)]) v0 after_miss_of_B players_differ
           after_miss_of_B_reachable).
Defined.

Lemma no_ship_no_attack_witness :
  getPlayerAShipCount no_fleet <= 0
  /\ fst (startGame 10 FORFEIT pA pB 0 newGameManager no_fleet
                    (store [(2, 2)] [(1, 1)]) v0) = true
  /\ trace (snd (startGame 10 FORFEIT pA pB 0 newGameManager no_fleet
                           (store [(2, 2)] [(1, 1)]) v0))
     = [CallSetBoard pA 10 10; CallSetBoard pB 10 10;
        CallVisualizeEndGame no_fleet false false].
Proof.
  assert (H : getPlayerAShipCount no_fleet <= 0) by (cbn; lia).
  split; [exact H|].
  destruct (no_ship_no_attack 10 FORFEIT pA pB 0 newGameManager no_fleet
              (store [(2, 2)] [(1, 1)]) v0 (or_introl H))
    as (H1 & H2 & _).
  split; [exact H1 | exact H2].
Defined.

Lemma both_forfeit_at_once_witness :
  fst (startGame 10 FORFEIT pA pB 2 newGameManager duel (store [] []) v0)
  = true
  /\ trace (snd (startGame 10 FORFEIT pA pB 2 newGameManager duel
                           (store [] []) v0))
     = [CallSetBoard pA 10 10; CallSetBoard pB 10 10;
        CallAttack pA FORFEIT; CallAttack pB FORFEIT;
        CallVisualizeEndGame duel true true]
  /\ board (snd (startGame 10 FORFEIT pA pB 2 newGameManager duel
                           (store [] []) v0)) = duel.
Proof.
  assert (HA : 0 < getPlayerAShipCount duel) by (cbn; lia).
  assert (HB : 0 < getPlayerBShipCount duel) by (cbn; lia).
  assert (FA : fst (attack (setBoard (getBoardMatrix duel) 10 10
                                     (store [] [] pA))) = FORFEIT)
    by reflexivity.
  assert (FB : fst (attack (setBoard (getBoardMatrix duel) 10 10
                                     (store [] [] pB))) = FORFEIT)
    by reflexivity.
  apply (both_forfeit_at_once 10 FORFEIT pA pB 2 newGameManager duel
           (store [] []) v0 players_differ HA HB FA FB (le_n 2)).
Defined.

Lemma switchPlayerTurns_skips_forfeited_witness :
  (switchPlayerTurns pA pB pB true false = pA /\ true = false)
  \/ (switchPlayerTurns pA pB pB true false = pB /\ false = false).
Proof.
  apply (switchPlayerTurns_skips_forfeited pA pB pB true false).
  reflexivity.
Defined.

Lemma same_object_never_ends_by_forfeit_witness :
  isPlayerAForfeit
    (loop_body FORFEIT pA pA
       (initial_state 10 pA pA newGameManager duel (store [] []) v0)) = true
  /\ loop_cond
       (loop_body FORFEIT pA pA
          (initial_state 10 pA pA newGameManager duel (store [] []) v0))
     = true
  /\ isPlayerBForfeit
       (loop_body FORFEIT pA pA
          (initial_state 10 pA pA newGameManager duel (store [] []) v0))
     = false.
Proof.
  split; [reflexivity|]. split; [reflexivity|].
  assert (C : loop_cond (initial_state 10 pA pA newGameManager duel
                                       (store [] []) v0) = true)
    by reflexivity.
  apply (same_object_never_ends_by_forfeit 10 FORFEIT pA newGameManager
           duel (store [] []) v0 _
           (reachable_step 10 FORFEIT pA pA newGameManager duel
              (store [] []) v0 _
              (reachable_init 10 FORFEIT pA pA newGameManager duel
                              (store [] []) v0) C)).
Defined.

Lemma piece_is_hit_or_sink_witness :
  snd (executeAttack (board first_shot) (normalize (2, 2)))
  = Some {| _lifeLeft := 0 |}
  /\ outcome FORFEIT first_shot = Resolved Sink
  /\ currentPlayer (loop_body FORFEIT pA pB first_shot)
     = currentPlayer first_shot.
Proof.
  assert (E : fst (call_attack (players first_shot)
                              (currentPlayer first_shot)) = (2, 2))
    by reflexivity.
  assert (N : (2, 2) <> FORFEIT) by discriminate.
  assert (P : snd (executeAttack (board first_shot) (normalize (2, 2)))
              = Some {| _lifeLeft := 0 |}) by reflexivity.
  split; [exact P|].
  destruct (piece_is_hit_or_sink FORFEIT pA pB first_shot (2, 2)
              {| _lifeLeft := 0 |} E N P) as (H1 & _ & H3 & _).
  split; [exact H1 | exact H3].
Defined.

Lemma round_statistics_strictly_increasing_witness :
  playerStatistics (roundResultsOf 1 [alice; carol]) = [carol; alice]
  /\ PlayerStatisticsRatingSort carol alice = true
  /\ rating carol <> rating alice.
Proof.
  split; [reflexivity|].
  apply (round_statistics_strictly_increasing 1 [alice; carol] 0 1
           carol alice); [lia | reflexivity | reflexivity].
Defined.

Lemma round_statistics_represent_insertions_witness :
  exists y, In y (playerStatistics (roundResultsOf 1 [alice; bob]))
            /\ (y = bob \/ In y [alice])
            /\ rating_equivalent bob y = true.
Proof.
  apply (proj2 (proj2 (round_statistics_represent_insertions
                         1 [alice; bob])) [alice] [] bob).
  reflexivity.
Defined.

Lemma round_statistics_drop_equal_rating_witness :
  In alice [carol; alice]
  /\ rating bob = rating alice
  /\ playerStatistics (roundResultsOf 1 ([carol; alice] ++ [bob]))
     = playerStatistics (roundResultsOf 1 [carol; alice]).
Proof.
  assert (I : In alice [carol; alice]) by (right; left; reflexivity).
  split; [exact I|]. split; [reflexivity|].
  apply (round_statistics_drop_equal_rating 1 [carol; alice] bob alice I).
  reflexivity.
Defined.

(** Two strategies that attack an empty cell for ever: the board and the
    flags stay as they are, and the loop goes on. *)
Lemma endless_body (st : @GameState DemoBoard unit Counter) :
  board st = duel ->
  isPlayerAForfeit st = false ->
  isPlayerBForfeit st = false ->
  board (loop_body FORFEIT pA pB st) = duel
  /\ isPlayerAForfeit (loop_body FORFEIT pA pB st) = false
  /\ isPlayerBForfeit (loop_body FORFEIT pA pB st) = false.
Proof.
  destruct st as [m bd pl vi cur fA fB tr]. cbn [board isPlayerAForfeit
                                                  isPlayerBForfeit].
  intros -> -> ->. repeat split; reflexivity.
Qed.

Lemma endless_loop (fuel : nat) (st : @GameState DemoBoard unit Counter) :
  board st = duel ->
  isPlayerAForfeit st = false ->
  isPlayerBForfeit st = false ->
  fst (game_loop FORFEIT pA pB fuel st) = false.
Proof.
  revert st. induction fuel as [|fuel IH]; intros st Hb HA HB;
    cbn [game_loop];
    assert (C : loop_cond st = true)
      by (unfold loop_cond; rewrite Hb, HA, HB; reflexivity);
    rewrite C; [reflexivity|].
  destruct (endless_body st Hb HA HB) as (Hb' & HA' & HB').
  apply IH; assumption.
Qed.

(** C9, as stated, fails: the match between two strategies that miss for
    ever is a run of [startGame] in which [visualizeEndGame] is never
    called, however long it is run. *)
Lemma endless_match_never_calls_visualizeEndGame :
  ~ exists fuel : nat,
      fst (endless fuel) = true
      \/ filter is_end_game_call (trace (snd (endless fuel))) <> [].
Proof.
  intros [fuel H].
  enough (G : fst (endless fuel) = false
              /\ filter is_end_game_call (trace (snd (endless fuel))) = []).
  { destruct G as [G1 G2]. destruct H as [H|H]; congruence. }
  clear H.
  assert (F : fst (game_loop FORFEIT pA pB fuel
                     (initial_state 10 pA pB newGameManager duel idle v0))
              = false)
    by (apply endless_loop; reflexivity).
  unfold endless, startGame. rewrite F. cbn [fst snd].
  split; [reflexivity|]. apply filter_none.
  apply (reachable_trace 10 FORFEIT pA pB newGameManager duel idle v0).
  apply game_loop_reachable. apply reachable_init.
Qed.

End SmallInputs.
